(** * Macro expansion of [resources/zmk_defines.h]

    The header consists of [#define] directives only.  Its meaning is what a
    C preprocessor makes of an invocation once the header has been read, so
    the development has two layers:

    - the _macro table_ of the header, a literal transcription of its four
      directives into preprocessing tokens ([MACRO_PLACEHOLDER], [ZMK_MACRO],
      [ZMK_MACRO1], [ZMK_MACRO2], collected in [zmk_defines]);
    - the macro-expansion algorithm of ISO C 6.10.3 ([expand]): argument
      collection, complete macro expansion of each argument before it is
      substituted (6.10.3.1), and rescanning of the replacement together
      with the rest of the input, during which the name of the macro being
      replaced is not replaced again (6.10.3.4).  The last rule is kept in
      the usual way, by a hide set on every token.

    Tokens are preprocessing tokens; white space between tokens is not part
    of the model.  The operators [#param] and [##] are not used by the header
    (its only [#] is followed by [binding], which is not a parameter; the
    preprocessors that read devicetree sources keep such a [#] as an
    ordinary token), so substitution is plain parameter substitution, and
    [substitution_only] checks that the table stays inside that fragment.
    Variable arguments may be left out altogether, as in [M(name)].

    Rescanning is not structurally recursive, so [expand] takes fuel.  Every
    statement about a result is of the form "for all sufficiently large
    fuel" ([expands_to]); [expand_converges] shows that enough fuel exists
    for every input whose parentheses pair up.

    The macro table is that of the header and of nothing else.  A
    preprocessor also brings names of its own: predefined macros such as
    [__LINE__], [__FILE__] or [__COUNTER__] (6.10.8) and operators such as
    [_Pragma] (6.10.9).  Which names these are, what they are replaced by
    and whether that can fail is the preprocessor's business, not the
    header's; [expand] has no rule for them and would copy them like any
    other identifier.  An [environment] therefore says which names are
    predefined, and what is stated about arbitrary arguments is stated for
    [ordinary] ones, which use none of these names; [expand_ordinary] shows
    that expansion with this header never produces one.  Likewise, an [Err]
    says that and why the expansion stops; the tokens a preprocessor may
    have written before it stops are not part of an error result. *)

From Stdlib Require Import String Bool Arith Lia List.
Import ListNotations.
Open Scope string_scope.
Open Scope list_scope.

(** ** Preprocessing tokens *)

Inductive token : Type :=
| TId (s : string)      (* identifier *)
| TNum (s : string)     (* pp-number *)
| TStr (s : string)     (* string literal, without its quotes *)
| TPunct (s : string).  (* punctuator or any other single character *)

Definition token_eqb (a b : token) : bool :=
  match a, b with
  | TId x, TId y | TNum x, TNum y | TStr x, TStr y | TPunct x, TPunct y =>
      String.eqb x y
  | _, _ => false
  end.

Definition LP : token := TPunct "(".
Definition RP : token := TPunct ")".
Definition COMMA : token := TPunct ",".

Definition is_lparen (t : token) : bool := token_eqb t LP.
Definition is_rparen (t : token) : bool := token_eqb t RP.
Definition is_comma (t : token) : bool := token_eqb t COMMA.

(** A token during expansion carries its hide set: the macros whose
    replacement produced it and which must not be replaced in it again. *)
Definition hideset : Type := list string.
Definition ptok : Type := (token * hideset)%type.

Definition fresh (t : token) : ptok := (t, []).

Definition hs_mem (x : string) (hs : hideset) : bool :=
  existsb (String.eqb x) hs.

Definition hs_inter (a b : hideset) : hideset :=
  filter (fun x => hs_mem x b) a.

Definition hsadd (hs : hideset) (ts : list ptok) : list ptok :=
  map (fun t => (fst t, hs ++ snd t)) ts.

(** ** Macro definitions *)

Inductive macro_kind : Type :=
| ObjectLike
| FunctionLike (params : list string) (variadic : bool).

Record macro : Type := Macro {
  m_name : string;
  m_kind : macro_kind;
  m_body : list token
}.

Definition VA_ARGS : string := "__VA_ARGS__".

(** *** The directives of the header, in file order *)

(** Line 1: [#define MACRO_PLACEHOLDER 0] *)
Definition MACRO_PLACEHOLDER : macro :=
  Macro "MACRO_PLACEHOLDER" ObjectLike [TNum "0"].

(** Lines 2-7: [#define ZMK_MACRO(name,...)] *)
Definition ZMK_MACRO : macro :=
  Macro "ZMK_MACRO" (FunctionLike ["name"] true)
    [ TId "name"; TPunct ":"; TId "name"; TPunct "{";
      TId "compatible"; TPunct "="; TStr "zmk,behavior-macro"; TPunct ";";
      TPunct "#"; TId "binding"; TPunct "-"; TId "cells"; TPunct "=";
      TPunct "<"; TNum "0"; TPunct ">"; TPunct ";";
      TId "__VA_ARGS__";
      TPunct "}"; TPunct ";" ].

(** Lines 9-14: [#define ZMK_MACRO1(name,...)] *)
Definition ZMK_MACRO1 : macro :=
  Macro "ZMK_MACRO1" (FunctionLike ["name"] true)
    [ TId "name"; TPunct ":"; TId "name"; TPunct "{";
      TId "compatible"; TPunct "="; TStr "zmk,behavior-macro-one-param";
      TPunct ";";
      TPunct "#"; TId "binding"; TPunct "-"; TId "cells"; TPunct "=";
      TPunct "<"; TNum "1"; TPunct ">"; TPunct ";";
      TId "__VA_ARGS__";
      TPunct "}"; TPunct ";" ].

(** Lines 16-21: [#define ZMK_MACRO2(name,...)] *)
Definition ZMK_MACRO2 : macro :=
  Macro "ZMK_MACRO2" (FunctionLike ["name"] true)
    [ TId "name"; TPunct ":"; TId "name"; TPunct "{";
      TId "compatible"; TPunct "="; TStr "zmk,behavior-macro-two-param";
      TPunct ";";
      TPunct "#"; TId "binding"; TPunct "-"; TId "cells"; TPunct "=";
      TPunct "<"; TNum "2"; TPunct ">"; TPunct ";";
      TId "__VA_ARGS__";
      TPunct "}"; TPunct ";" ].

Definition zmk_defines : list macro :=
  [MACRO_PLACEHOLDER; ZMK_MACRO; ZMK_MACRO1; ZMK_MACRO2].

Definition defined_names (defs : list macro) : list string :=
  map m_name defs.

(** ** Results *)

(** The ways macro expansion with the macros of a table can stop without a
    result.  A failure inside one of the preprocessor's own operators (a
    malformed [_Pragma], say) is not among them: such names are not in the
    table, see [environment]. *)
Inductive error : Type :=
| OutOfFuel
| Unterminated (m : string)   (* no closing parenthesis for the invocation *)
| BadArity (m : string).      (* wrong number of arguments *)

Inductive result (A : Type) : Type :=
| Ok (a : A)
| Err (e : error).

Arguments Ok {A} a.
Arguments Err {A} e.

Definition bind {A B : Type} (r : result A) (k : A -> result B) : result B :=
  match r with
  | Ok a => k a
  | Err e => Err e
  end.

Notation "x <- r ;; k" := (bind r (fun x => k))
  (at level 61, r at next level, right associativity).

(** ** The expansion algorithm *)

Section Expansion.

Variable defs : list macro.

Fixpoint lookup_in (l : list macro) (x : string) : option macro :=
  match l with
  | [] => None
  | m :: l' => if String.eqb x (m_name m) then Some m else lookup_in l' x
  end.

Definition lookup (x : string) : option macro := lookup_in defs x.

Definition starts_with_lparen (ts : list ptok) : bool :=
  match ts with
  | t :: _ => is_lparen (fst t)
  | [] => false
  end.

Definition push_first (t : ptok)
    (r : option (list (list ptok) * hideset * list ptok))
    : option (list (list ptok) * hideset * list ptok) :=
  match r with
  | Some (a :: args, hs, rest) => Some ((t :: a) :: args, hs, rest)
  | _ => None
  end.

Definition new_arg (r : option (list (list ptok) * hideset * list ptok))
    : option (list (list ptok) * hideset * list ptok) :=
  match r with
  | Some (args, hs, rest) => Some ([] :: args, hs, rest)
  | None => None
  end.

(** [collect depth k ts] reads the arguments of an invocation from [ts], the
    tokens after its opening parenthesis.  [depth] counts the parentheses
    opened inside the arguments, [k] the commas that still separate
    arguments: a macro with [n] named parameters splits at the first [n]
    top-level commas, so that whatever follows stays one item, commas
    included (6.10.3p12).  The result is the arguments, the hide set of the
    closing parenthesis and the tokens after it; [None] when the closing
    parenthesis is missing. *)
Fixpoint collect (depth k : nat) (ts : list ptok)
    : option (list (list ptok) * hideset * list ptok) :=
  match ts with
  | [] => None
  | t :: rest =>
      if is_rparen (fst t) then
        match depth with
        | 0 => Some ([[]], snd t, rest)
        | S d => push_first t (collect d k rest)
        end
      else if is_lparen (fst t) then push_first t (collect (S depth) k rest)
      else if is_comma (fst t) && Nat.eqb depth 0 && Nat.ltb 0 k then
        new_arg (collect 0 (k - 1) rest)
      else push_first t (collect depth k rest)
  end.

Definition env : Type := list (string * list ptok).

Fixpoint bind_variadic (params : list string) (args : list (list ptok))
    : option env :=
  match params, args with
  | [], [] => Some [(VA_ARGS, [])]
  | [], [a] => Some [(VA_ARGS, a)]
  | p :: ps, a :: args' =>
      option_map (cons (p, a)) (bind_variadic ps args')
  | _, _ => None
  end.

Definition is_nil {A : Type} (l : list A) : bool :=
  match l with [] => true | _ => false end.

(** Parameters are bound to arguments by position.  A variadic macro takes
    at least as many arguments as it has named parameters; the variable
    arguments may be absent and are then empty. *)
Definition bind_args (params : list string) (variadic : bool)
    (args : list (list ptok)) : option env :=
  if variadic then bind_variadic params args
  else match params, args with
       | [], [a] => if is_nil a then Some [] else None
       | _, _ => if Nat.eqb (length params) (length args)
                 then Some (combine params args) else None
       end.

Fixpoint env_find (e : env) (x : string) : option (list ptok) :=
  match e with
  | [] => None
  | (p, a) :: e' => if String.eqb x p then Some a else env_find e' x
  end.

Definition param_of (e : env) (t : token) : option (list ptok) :=
  match t with
  | TId x => env_find e x
  | _ => None
  end.

(** Substitution into a replacement list: a parameter is replaced by its
    argument after that argument has been completely macro-expanded by [ex];
    every other token of the replacement list is copied. *)
Fixpoint subst (ex : list ptok -> result (list ptok)) (e : env)
    (body : list token) : result (list ptok) :=
  match body with
  | [] => Ok []
  | t :: body' =>
      match param_of e t with
      | Some actual =>
          a <- ex actual ;;
          r <- subst ex e body' ;;
          Ok (a ++ r)
      | None =>
          r <- subst ex e body' ;;
          Ok (fresh t :: r)
      end
  end.

(** [t] goes to the output, before what the rest of the input gives.  When
    the rest fails, the result is that error alone. *)
Definition emit (t : ptok) (r : result (list ptok)) : result (list ptok) :=
  out <- r ;; Ok (t :: out).

(** What the token at the head of the input is, given the tokens after it.
    The macros known are those of the table [defs]; an identifier that is
    not defined there is copied. *)
Inductive head : Type :=
| Plain                          (* copied to the output *)
| Object (m : macro)             (* name of an object-like macro *)
| Invocation (m : macro) (params : list string) (variadic : bool).
                                 (* function-like macro name followed by ( *)

Definition classify (t : ptok) (rest : list ptok) : head :=
  match fst t with
  | TId x =>
      if hs_mem x (snd t) then Plain
      else
        match lookup x with
        | None => Plain
        | Some m =>
            match m_kind m with
            | ObjectLike => Object m
            | FunctionLike params variadic =>
                if starts_with_lparen rest
                then Invocation m params variadic
                else Plain
            end
        end
  | _ => Plain
  end.

(** Expansion of a token sequence.  Every call consumes one unit of fuel.
    The replacement of a macro is put back in front of the remaining input
    and scanned again, with the macro's name added to the hide sets. *)
Fixpoint expand (fuel : nat) (ts : list ptok) : result (list ptok) :=
  match fuel with
  | 0 => Err OutOfFuel
  | S fuel' =>
      match ts with
      | [] => Ok []
      | t :: rest =>
          match classify t rest with
          | Plain => emit t (expand fuel' rest)
          | Object m =>
              expand fuel'
                (hsadd (m_name m :: snd t) (map fresh (m_body m)) ++ rest)
          | Invocation m params variadic =>
              match collect 0 (length params) (tl rest) with
              | None => Err (Unterminated (m_name m))
              | Some (args, hs', rest') =>
                  match bind_args params variadic args with
                  | None => Err (BadArity (m_name m))
                  | Some e =>
                      r <- subst (expand fuel') e (m_body m) ;;
                      expand fuel'
                        (hsadd (m_name m :: hs_inter (snd t) hs') r ++ rest')
                  end
              end
          end
      end
  end.

(** The preprocessor on plain tokens. *)
Definition preprocess (fuel : nat) (ts : list token) : result (list token) :=
  out <- expand fuel (map fresh ts) ;; Ok (map fst out).

(** The table stays inside the fragment [subst] implements: no [##], and no
    [#] directly before a parameter. *)
Fixpoint plain_body (params : list string) (body : list token) : bool :=
  match body with
  | [] => true
  | TPunct p :: body' =>
      negb (String.eqb p "##")
      && negb (String.eqb p "#"
               && match body' with
                  | TId x :: _ => existsb (String.eqb x) params
                  | _ => false
                  end)
      && plain_body params body'
  | _ :: body' => plain_body params body'
  end.

Definition plain_macro (m : macro) : bool :=
  match m_kind m with
  | ObjectLike => true
  | FunctionLike params variadic =>
      plain_body (if variadic then VA_ARGS :: params else params) (m_body m)
  end.

Definition substitution_only : bool := forallb plain_macro defs.

End Expansion.

(** The preprocessor after it has read the header. *)
Definition cpp (fuel : nat) (ts : list token) : result (list token) :=
  preprocess zmk_defines fuel ts.

(** ** Invocations and the text the spec describes *)

(** [M(name, va)] *)
Definition call (m : string) (name va : list token) : list token :=
  TId m :: LP :: name ++ COMMA :: va ++ [RP].

(** [M(name)]: no variable arguments at all *)
Definition call0 (m : string) (name : list token) : list token :=
  TId m :: LP :: name ++ [RP].

(** The opening brace and the two properties:
    [{ compatible = "compat"; #binding-cells = <cells>;] *)
Definition properties (compat cells : string) : list token :=
  [ TPunct "{";
    TId "compatible"; TPunct "="; TStr compat; TPunct ";";
    TPunct "#"; TId "binding"; TPunct "-"; TId "cells"; TPunct "=";
    TPunct "<"; TNum cells; TPunct ">"; TPunct ";" ].

(** [};] *)
Definition closing : list token := [ TPunct "}"; TPunct ";" ].

(** A devicetree node labelled and named [name], with the two properties and
    then [va] in its body. *)
Definition node (name : list token) (compat cells : string)
    (va : list token) : list token :=
  name ++ TPunct ":" :: name ++ properties compat cells ++ va ++ closing.

(** The three node macros with their constants. *)
Definition node_macros : list (string * (string * string)) :=
  [ ("ZMK_MACRO",  ("zmk,behavior-macro", "0"));
    ("ZMK_MACRO1", ("zmk,behavior-macro-one-param", "1"));
    ("ZMK_MACRO2", ("zmk,behavior-macro-two-param", "2")) ].

(** [ts] expands to [out]: the preprocessor returns [out] as soon as the
    fuel suffices. *)
Definition expands_to (ts out : list token) : Prop :=
  exists N, forall n, N <= n -> cpp n ts = Ok out.

(** ** Shape of arguments *)

Definition depth_step (d : nat) (t : token) : option nat :=
  if is_lparen t then Some (S d)
  else if is_rparen t then
    match d with 0 => None | S d' => Some d' end
  else Some d.

(** Parenthesis depth after [ts], starting from depth [d]; [None] when a
    closing parenthesis has no partner. *)
Fixpoint scan (d : nat) (ts : list token) : option nat :=
  match ts with
  | [] => Some d
  | t :: rest =>
      match depth_step d t with
      | Some d' => scan d' rest
      | None => None
      end
  end.

Definition closes (d : nat) (ts : list token) : bool :=
  match scan d ts with
  | Some 0 => true
  | _ => false
  end.

(** Parentheses pair up inside [ts]: what 6.10.3p11 asks of the tokens
    between the parentheses of an invocation. *)
Definition balanced (ts : list token) : bool := closes 0 ts.

(** A comma outside all parentheses. *)
Fixpoint top_comma (d : nat) (ts : list token) : bool :=
  match ts with
  | [] => false
  | t :: rest =>
      (is_comma t && Nat.eqb d 0)
      || match depth_step d t with
         | Some d' => top_comma d' rest
         | None => false
         end
  end.

(** A single argument: balanced, and no comma that would end it. *)
Definition is_argument (ts : list token) : bool :=
  balanced ts && negb (top_comma 0 ts).

(** No name of a function-like macro of the header stands directly before
    an opening parenthesis: [ts] contains no invocation of [ZMK_MACRO],
    [ZMK_MACRO1] or [ZMK_MACRO2]. *)
Fixpoint call_free (ts : list token) : bool :=
  match ts with
  | [] => true
  | t :: rest =>
      match classify zmk_defines (fresh t) (map fresh rest) with
      | Invocation _ _ _ => false
      | _ => call_free rest
      end
  end.

(** What line 1 of the header does to a token. *)
Definition replace_placeholder (t : token) : token :=
  match t with
  | TId x => if String.eqb x "MACRO_PLACEHOLDER" then TNum "0" else t
  | _ => t
  end.

Definition placeholders_replaced (ts : list token) : list token :=
  map replace_placeholder ts.

(** ** Sample arguments *)

Definition my_macro : list token := [TId "my_macro"].

(** [bindings = <&kp A>;] *)
Definition key_bindings : list token :=
  [ TId "bindings"; TPunct "="; TPunct "<"; TPunct "&"; TId "kp"; TId "A";
    TPunct ">"; TPunct ";" ].

(** [bindings = <&macro_param_1to1>, <&kp MACRO_PLACEHOLDER>;] *)
Definition param_bindings : list token :=
  [ TId "bindings"; TPunct "=";
    TPunct "<"; TPunct "&"; TId "macro_param_1to1"; TPunct ">"; COMMA;
    TPunct "<"; TPunct "&"; TId "kp"; TId "MACRO_PLACEHOLDER"; TPunct ">";
    TPunct ";" ].

(** [ZMK_MACRO ZMK_MACRO1((b))]: the first name has no parenthesis after it
    until the invocation behind it has been replaced. *)
Definition deferred_call : list token :=
  TId "ZMK_MACRO" :: call0 "ZMK_MACRO1" [LP; TId "b"; RP].

(** [ZMK_MACRO(inner,)] *)
Definition nested_call : list token := call "ZMK_MACRO" [TId "inner"] [].

(** [bindings = <&macro_param_1to1>, <&kp 0>;] *)
Definition param_bindings_expanded : list token :=
  [ TId "bindings"; TPunct "=";
    TPunct "<"; TPunct "&"; TId "macro_param_1to1"; TPunct ">"; COMMA;
    TPunct "<"; TPunct "&"; TId "kp"; TNum "0"; TPunct ">";
    TPunct ";" ].

(** [? (1 ,) MACRO_PLACEHOLDER]: no devicetree name, but a macro argument. *)
Definition odd_name : list token :=
  [TPunct "?"; LP; TNum "1"; COMMA; RP; TId "MACRO_PLACEHOLDER"].

(** ** Notions used in the proofs *)

(** No token of [ts] is replaced when [ts] is scanned: no name of an
    object-like macro, no name of a function-like macro directly before an
    opening parenthesis, unless the hide set forbids the replacement. *)
Fixpoint inert (defs : list macro) (ts : list ptok) : bool :=
  match ts with
  | [] => true
  | t :: rest =>
      match classify defs t rest with
      | Plain => inert defs rest
      | _ => false
      end
  end.

Definition is_identifier (t : token) : bool :=
  match t with
  | TId _ => true
  | _ => false
  end.

(** What the three node macros have in common: their replacement list, up
    to the string after [compatible =] and the number between [<] and [>]. *)
Definition template (compat cells : string) : list token :=
  [ TId "name"; TPunct ":"; TId "name"; TPunct "{";
    TId "compatible"; TPunct "="; TStr compat; TPunct ";";
    TPunct "#"; TId "binding"; TPunct "-"; TId "cells"; TPunct "=";
    TPunct "<"; TNum cells; TPunct ">"; TPunct ";";
    TId "__VA_ARGS__";
    TPunct "}"; TPunct ";" ].

Definition is_node_macro (m : macro) (compat cells : string) : Prop :=
  lookup zmk_defines (m_name m) = Some m /\
  m_kind m = FunctionLike ["name"] true /\
  m_body m = template compat cells.

(** The replacement list with both parameters filled in. *)
Definition filled (a : list ptok) (compat cells : string) (v : list ptok)
    : list ptok :=
  a ++ fresh (TPunct ":") :: a
    ++ map fresh (properties compat cells) ++ v ++ map fresh closing.

(** The same up to its closing brace. *)
Definition opening (a : list ptok) (compat cells : string) (v : list ptok)
    : list ptok :=
  a ++ fresh (TPunct ":") :: a ++ map fresh (properties compat cells) ++ v.

(** *** The weight that decreases during expansion

    Rescanning can find invocations that argument pre-expansion left
    behind, and the replacement lists use [name] twice, so neither the
    length of the input nor its number of macro names decreases.  What
    decreases is a weight in which every token counts [2 ^ depth], its
    parenthesis depth, and a replaceable macro name counts 32 times that:
    an invocation moves its arguments one level up and pays for the fixed
    tokens of the replacement list with the weight of its name. *)

Definition is_macro_name (t : ptok) : bool :=
  match fst t with
  | TId x =>
      negb (hs_mem x (snd t))
      && match lookup zmk_defines x with Some _ => true | None => false end
  | _ => false
  end.

Definition weight (t : ptok) : nat := if is_macro_name t then 32 else 1.

Definition next_depth (d : nat) (t : token) : nat :=
  match depth_step d t with
  | Some d' => d'
  | None => 0
  end.

Fixpoint mu (d : nat) (ts : list ptok) : nat :=
  match ts with
  | [] => 0
  | t :: rest => weight t * 2 ^ d + mu (next_depth d (fst t)) rest
  end.

Definition mu_args (c : nat) (args : list (list ptok)) : nat :=
  match args with
  | [] => 0
  | a :: rest => mu c a + list_sum (map (mu 0) rest)
  end.

(** Every collected argument is balanced; the first one starts at depth
    [c]. *)
Definition args_closed (c : nat) (args : list (list ptok)) : Prop :=
  match args with
  | [] => False
  | a :: rest =>
      scan c (map fst a) = Some 0 /\
      Forall (fun b => scan 0 (map fst b) = Some 0) rest
  end.

(** [collect] succeeds on [ts], and the arguments together with the tokens
    after the invocation weigh less than [ts] did. *)
Definition collected (D P c k : nat) (ts : list ptok) : Prop :=
  exists args hs rest,
    collect c k ts = Some (args, hs, rest) /\
    scan D (map fst rest) = Some 0 /\
    args_closed c args /\
    length args <= S k /\
    P * mu_args c args + P + mu D rest <= mu (c + S D) ts.

(** ** Source text with its invocations marked

    A piece of source text in which every invocation of a node macro has
    been found: an [item] is a single token or an invocation [m(name, va)]
    whose arguments are such pieces again. *)
















(** ** Names the preprocessor brings along *)

(** The tokens a macro writes itself: its replacement list without the
    parameters. *)
Definition is_parameter (m : macro) (t : token) : bool :=
  match t, m_kind m with
  | TId x, FunctionLike params variadic =>
      existsb (String.eqb x) (if variadic then VA_ARGS :: params else params)
  | _, _ => false
  end.

Definition own_tokens (m : macro) : list token :=
  filter (fun t => negb (is_parameter m t)) (m_body m).

Definition header_words : list token := flat_map own_tokens zmk_defines.

(** No identifier of [ts] is one of the names [p]. *)
Definition avoids (p : string -> bool) (ts : list token) : bool :=
  forallb (fun t => match t with TId x => negb (p x) | _ => true end) ts.

(** The names every preprocessor brings along: the mandatory predefined
    macros of 6.10.8.1 and the operator of 6.10.9.  An implementation adds
    names of its own, [__COUNTER__] for one. *)
Definition standard_names : list string :=
  [ "__DATE__"; "__FILE__"; "__LINE__"; "__STDC__"; "__STDC_HOSTED__";
    "__STDC_VERSION__"; "__TIME__"; "_Pragma" ].

(** The names that mean something to the preprocessor before it has read
    the header: its predefined macros and its operators.  The standard
    names are among them; the words the header writes into every node
    ([compatible], [binding], [cells]) are not. *)
Record environment : Type := Environment {
  predefined : string -> bool;
  standard_names_predefined : forallb predefined standard_names = true;
  header_words_avoid : avoids predefined header_words = true
}.

(** [ts] uses no predefined name. *)
Definition ordinary (E : environment) (ts : list token) : bool :=
  avoids (predefined E) ts.

(** An environment that predefines every identifier beginning with an
    underscore: [__LINE__], [__FILE__], [__COUNTER__], [_Pragma] and the
    other names ISO C reserves for the implementation. *)
Definition underscore (x : string) : bool := String.prefix "_" x.

Definition reserved_names : environment :=
  Environment underscore eq_refl eq_refl.

(** ** Braces

    The braces of a devicetree node.  [brace_scan] counts them the way
    [scan] counts parentheses. *)

Definition is_lbrace (t : token) : bool := token_eqb t (TPunct "{").
Definition is_rbrace (t : token) : bool := token_eqb t (TPunct "}").

Definition brace_free (ts : list token) : bool :=
  forallb (fun t => negb (is_lbrace t || is_rbrace t)) ts.

Definition brace_step (d : nat) (t : token) : option nat :=
  if is_lbrace t then Some (S d)
  else if is_rbrace t then
    match d with 0 => None | S d' => Some d' end
  else Some d.

Fixpoint brace_scan (d : nat) (ts : list token) : option nat :=
  match ts with
  | [] => Some d
  | t :: rest =>
      match brace_step d t with
      | Some d' => brace_scan d' rest
      | None => None
      end
  end.

(** Every closing brace of [ts] has its opening brace before it in [ts],
    and every opening brace is closed. *)
Definition braces_paired (ts : list token) : bool :=
  match brace_scan 0 ts with
  | Some 0 => true
  | _ => false
  end.

(** [ts] is the rest of a node whose opening brace has been read, [d]
    further braces being open: the node's own brace is closed by the last
    closing brace of [ts], and only the semicolon follows it. *)
Fixpoint inside (d : nat) (ts : list token) : bool :=
  match ts with
  | [] => false
  | t :: rest =>
      if is_lbrace t then inside (S d) rest
      else if is_rbrace t then
        match d with
        | 0 => match rest with
               | [s] => token_eqb s (TPunct ";")
               | _ => false
               end
        | S d' => inside d' rest
        end
      else inside d rest
  end.

(** [ts] is one node and nothing more: tokens without braces, an opening
    brace, and a body that ends exactly where that brace is closed, with
    [};]. *)
Fixpoint single_node (ts : list token) : bool :=
  match ts with
  | [] => false
  | t :: rest =>
      if is_lbrace t then inside 0 rest
      else if is_rbrace t then false
      else single_node rest
  end.

(** ** Further sample arguments *)

(** [ZMK_MACRO1(a, ZMK_MACRO2 ZMK_MACRO ZMK_MACRO1(((c))))]: a complete
    invocation whose expansion still contains [ZMK_MACRO2 (c)]. *)
Definition inner_call : list token :=
  call "ZMK_MACRO1" [TId "a"]
    (TId "ZMK_MACRO2" :: TId "ZMK_MACRO"
     :: call0 "ZMK_MACRO1" [LP; LP; TId "c"; RP; RP]).

(** What [inner_call] expands to on its own:
    [a: a { ...; ZMK_MACRO2 (c): (c) { ... }; : ((c)) { ... }; };] *)
Definition inner_call_expanded : list token :=
  node [TId "a"] "zmk,behavior-macro-one-param" "1"
    (TId "ZMK_MACRO2"
     :: node [LP; TId "c"; RP] "zmk,behavior-macro" "0" []
     ++ TPunct ":" :: [LP; LP; TId "c"; RP; RP]
     ++ properties "zmk,behavior-macro-one-param" "1" ++ closing).

(** [b {] *)
Definition open_brace : list token := [TId "b"; TPunct "{"].

(** [}; b: b {] *)
Definition second_node : list token :=
  [ TPunct "}"; TPunct ";"; TId "b"; TPunct ":"; TId "b"; TPunct "{" ].

(** [ZMK_MACRO({, })]: the braces pair up in the text, not in the node the
    invocation expands to. *)
Definition brace_call : list token :=
  call "ZMK_MACRO" [TPunct "{"] [TPunct "}"].

(** * Proofs *)

(** ** Tokens *)

Lemma token_eqb_eq (a b : token) : token_eqb a b = true -> a = b.
Proof.
  destruct a, b; simpl; intros H; try discriminate;
    apply String.eqb_eq in H; now subst.
Qed.

Lemma is_lparen_eq t : is_lparen t = true -> t = LP.
Proof. apply token_eqb_eq. Qed.

Lemma is_rparen_eq t : is_rparen t = true -> t = RP.
Proof. apply token_eqb_eq. Qed.

Lemma is_comma_eq t : is_comma t = true -> t = COMMA.
Proof. apply token_eqb_eq. Qed.

(** ** Results *)

Lemma bind_ok {A B : Type} (r : result A) (k : A -> result B) (b : B) :
  bind r k = Ok b -> exists a, r = Ok a /\ k a = Ok b.
Proof. destruct r; simpl; intros H; [eauto | discriminate]. Qed.

Lemma emit_ok t r out :
  emit t r = Ok out -> exists o, r = Ok o /\ out = t :: o.
Proof.
  unfold emit. intros H. apply bind_ok in H as (o & Hr & Ho).
  exists o. split; [assumption | congruence].
Qed.

(** ** Generic facts about the algorithm *)

Section Generic.

Variable defs : list macro.

Lemma expand_cons n t rest :
  expand defs (S n) (t :: rest) =
  match classify defs t rest with
  | Plain => emit t (expand defs n rest)
  | Object m =>
      expand defs n
        (hsadd (m_name m :: snd t) (map fresh (m_body m)) ++ rest)
  | Invocation m params variadic =>
      match collect 0 (length params) (tl rest) with
      | None => Err (Unterminated (m_name m))
      | Some (args, hs', rest') =>
          match bind_args params variadic args with
          | None => Err (BadArity (m_name m))
          | Some e =>
              r <- subst (expand defs n) e (m_body m) ;;
              expand defs n
                (hsadd (m_name m :: hs_inter (snd t) hs') r ++ rest')
          end
      end
  end.
Proof. reflexivity. Qed.

(** More fuel never changes a result. *)
Lemma subst_mono (ex1 ex2 : list ptok -> result (list ptok)) e body r :
  (forall a o, ex1 a = Ok o -> ex2 a = Ok o) ->
  subst ex1 e body = Ok r -> subst ex2 e body = Ok r.
Proof.
  intros Hex. revert r. induction body as [|t body IH]; intros r; simpl.
  - auto.
  - destruct (param_of e t) as [actual|].
    + intros H. apply bind_ok in H as (a & Ha & H).
      apply bind_ok in H as (r' & Hr & H).
      rewrite (Hex _ _ Ha). simpl. rewrite (IH _ Hr). simpl. exact H.
    + intros H. apply bind_ok in H as (r' & Hr & H).
      rewrite (IH _ Hr). simpl. exact H.
Qed.

Lemma expand_mono n :
  forall ts out, expand defs n ts = Ok out ->
  forall m, n <= m -> expand defs m ts = Ok out.
Proof.
  induction n as [|n IH]; intros ts out H m Hm; [discriminate|].
  destruct m as [|m]; [lia|]. assert (Hnm : n <= m) by lia.
  destruct ts as [|t rest]; [assumption|]. rewrite expand_cons in *.
  destruct (classify defs t rest) as [|mo|mf params variadic].
  - apply emit_ok in H as (o & Ho & ->).
    rewrite (IH _ _ Ho m Hnm). reflexivity.
  - eauto.
  - destruct (collect 0 (length params) (tl rest)) as [[[args hs'] rest']|];
      [|discriminate].
    destruct (bind_args params variadic args) as [e|]; [|discriminate].
    apply bind_ok in H as (r & Hr & H).
    assert (Hs : subst (expand defs m) e (m_body mf) = Ok r)
      by (eapply subst_mono; [|exact Hr]; eauto).
    rewrite Hs. simpl. eauto.
Qed.

Lemma expand_deterministic n m ts a b :
  expand defs n ts = Ok a -> expand defs m ts = Ok b -> a = b.
Proof.
  intros Ha Hb.
  pose proof (expand_mono n ts a Ha (Nat.max n m) (Nat.le_max_l n m)) as H1.
  pose proof (expand_mono m ts b Hb (Nat.max n m) (Nat.le_max_r n m)) as H2.
  congruence.
Qed.

(** *** Tokens after an invocation do not influence it *)

Lemma starts_with_lparen_app rest ys :
  starts_with_lparen ys = false ->
  starts_with_lparen (rest ++ ys) = starts_with_lparen rest.
Proof. destruct rest; simpl; auto. Qed.

Lemma classify_app t rest ys :
  starts_with_lparen ys = false ->
  classify defs t (rest ++ ys) = classify defs t rest.
Proof.
  intros H. unfold classify. now rewrite starts_with_lparen_app.
Qed.

Lemma collect_app ys :
  forall ts depth k args hs rest,
  collect depth k ts = Some (args, hs, rest) ->
  collect depth k (ts ++ ys) = Some (args, hs, rest ++ ys).
Proof.
  induction ts as [|t ts IH]; intros depth k args hs rest; simpl;
    [discriminate|].
  destruct (is_rparen (fst t)).
  - destruct depth as [|d].
    + intros H. now inversion H.
    + destruct (collect d k ts) as [[[[|a0 as0] hs0] rest0]|] eqn:E;
        simpl; try discriminate.
      intros H. inversion H; subst. now rewrite (IH _ _ _ _ _ E).
  - destruct (is_lparen (fst t)).
    + destruct (collect (S depth) k ts) as [[[[|a0 as0] hs0] rest0]|] eqn:E;
        simpl; try discriminate.
      intros H. inversion H; subst. now rewrite (IH _ _ _ _ _ E).
    + destruct (is_comma (fst t) && Nat.eqb depth 0 && Nat.ltb 0 k).
      * destruct (collect 0 (k - 1) ts) as [[[as0 hs0] rest0]|] eqn:E;
          simpl; try discriminate.
        intros H. inversion H; subst. now rewrite (IH _ _ _ _ _ E).
      * destruct (collect depth k ts) as [[[[|a0 as0] hs0] rest0]|] eqn:E;
          simpl; try discriminate.
        intros H. inversion H; subst. now rewrite (IH _ _ _ _ _ E).
Qed.

Lemma expand_app n :
  forall xs ox m ys oy,
  expand defs n xs = Ok ox ->
  expand defs m ys = Ok oy ->
  starts_with_lparen ys = false ->
  expand defs (n + m) (xs ++ ys) = Ok (ox ++ oy).
Proof.
  induction n as [|n IH]; intros xs ox m ys oy Hx Hy Hlp; [discriminate|].
  destruct xs as [|t rest].
  - simpl in Hx. inversion Hx; subst. simpl app.
    apply (expand_mono m); [assumption | lia].
  - replace (S n + m) with (S (n + m)) by lia.
    simpl app. rewrite expand_cons in Hx. rewrite expand_cons.
    rewrite classify_app by assumption.
    destruct (classify defs t rest) as [|mo|mf params variadic].
    + apply emit_ok in Hx as (o & Ho & ->).
      rewrite (IH _ _ _ _ _ Ho Hy Hlp). reflexivity.
    + rewrite app_assoc. eauto.
    + assert (Htl : tl (rest ++ ys) = tl rest ++ ys).
      { destruct rest; [|reflexivity].
        simpl in Hx. discriminate. }
      rewrite Htl.
      destruct (collect 0 (length params) (tl rest))
        as [[[args hs'] rest']|] eqn:E; [|discriminate].
      rewrite (collect_app _ _ _ _ _ _ _ E).
      destruct (bind_args params variadic args) as [e|]; [|discriminate].
      apply bind_ok in Hx as (r & Hr & Hx).
      assert (Hs : subst (expand defs (n + m)) e (m_body mf) = Ok r).
      { eapply subst_mono; [|exact Hr].
        intros a o Ha. apply (expand_mono n); [assumption | lia]. }
      rewrite Hs. simpl. rewrite app_assoc. eauto.
Qed.

(** *** Inert sequences are copied *)

Lemma inert_cons t rest :
  inert defs (t :: rest) =
  match classify defs t rest with
  | Plain => inert defs rest
  | _ => false
  end.
Proof. reflexivity. Qed.

Lemma expand_inert :
  forall ts n, inert defs ts = true -> length ts < n ->
  expand defs n ts = Ok ts.
Proof.
  induction ts as [|t rest IH]; intros n Hi Hn.
  - destruct n; [simpl in Hn; lia | reflexivity].
  - destruct n as [|n]; [lia|]. simpl in Hn. rewrite inert_cons in Hi.
    rewrite expand_cons.
    destruct (classify defs t rest); try discriminate.
    rewrite IH; [reflexivity | assumption | lia].
Qed.

Lemma inert_app a b :
  inert defs a = true -> inert defs b = true ->
  starts_with_lparen b = false ->
  inert defs (a ++ b) = true.
Proof.
  intros Ha Hb Hlp. induction a as [|t rest IH]; [assumption|].
  simpl app. rewrite inert_cons in *.
  rewrite classify_app by assumption.
  destruct (classify defs t rest); try discriminate. auto.
Qed.

Lemma hs_mem_app x a b : hs_mem x (a ++ b) = hs_mem x a || hs_mem x b.
Proof. unfold hs_mem. apply existsb_app. Qed.

Lemma starts_with_lparen_hsadd hs ts :
  starts_with_lparen (hsadd hs ts) = starts_with_lparen ts.
Proof. destruct ts; reflexivity. Qed.

Lemma inert_hsadd hs ts :
  inert defs ts = true -> inert defs (hsadd hs ts) = true.
Proof.
  induction ts as [|t rest IH]; [auto|].
  change (hsadd hs (t :: rest))
    with ((fst t, hs ++ snd t) :: hsadd hs rest).
  rewrite !inert_cons. unfold classify. simpl fst. simpl snd.
  rewrite starts_with_lparen_hsadd.
  destruct (fst t) as [x| | |]; auto.
  rewrite hs_mem_app. destruct (hs_mem x (snd t)).
  - rewrite orb_true_r. assumption.
  - rewrite orb_false_r.
    destruct (hs_mem x hs);
      destruct (lookup defs x) as [m|]; auto;
      destruct (m_kind m); try discriminate;
      destruct (starts_with_lparen rest); try discriminate; auto.
Qed.

End Generic.

(** ** Collecting arguments *)

Lemma token_kind t :
  t = LP \/ t = RP \/ t = COMMA \/
  (is_lparen t = false /\ is_rparen t = false /\ is_comma t = false).
Proof.
  destruct (is_lparen t) eqn:El; [left; now apply is_lparen_eq|].
  destruct (is_rparen t) eqn:Er; [right; left; now apply is_rparen_eq|].
  destruct (is_comma t) eqn:Ec; [right; right; left; now apply is_comma_eq|].
  right; right; right. auto.
Qed.

Lemma collect_cons depth k t rest :
  collect depth k (t :: rest) =
  if is_rparen (fst t) then
    match depth with
    | 0 => Some ([[]], snd t, rest)
    | S d => push_first t (collect d k rest)
    end
  else if is_lparen (fst t) then push_first t (collect (S depth) k rest)
  else if is_comma (fst t) && Nat.eqb depth 0 && Nat.ltb 0 k then
    new_arg (collect 0 (k - 1) rest)
  else push_first t (collect depth k rest).
Proof. reflexivity. Qed.

Lemma scan_cons d t rest :
  scan d (t :: rest) =
  match depth_step d t with
  | Some d' => scan d' rest
  | None => None
  end.
Proof. reflexivity. Qed.

(** The last argument ends at the closing parenthesis of the invocation. *)
Lemma collect_last rp rest :
  is_rparen (fst rp) = true ->
  forall a d k,
  scan d (map fst a) = Some 0 ->
  top_comma d (map fst a) = false \/ k = 0 ->
  collect d k (a ++ rp :: rest) = Some ([a], snd rp, rest).
Proof.
  intros Hrp. induction a as [|t a IH]; intros d k Hs Hc.
  - simpl in Hs. inversion Hs; subst. simpl app.
    rewrite collect_cons, Hrp. reflexivity.
  - simpl app. simpl map in Hs, Hc. rewrite scan_cons in Hs.
    rewrite collect_cons. simpl top_comma in Hc. unfold depth_step in *.
    destruct (token_kind (fst t)) as [E|[E|[E|(E1 & E2 & E3)]]].
    + rewrite E in *. simpl in *.
      rewrite IH; [reflexivity | assumption | assumption].
    + rewrite E in *. simpl in *. destruct d as [|d]; [discriminate|].
      rewrite IH; [reflexivity | assumption | assumption].
    + rewrite E in *. simpl in *. destruct d as [|d]; simpl in *.
      * destruct Hc as [Hc | ->]; [discriminate|]. simpl.
        rewrite IH; [reflexivity | assumption | now right].
      * rewrite IH; [reflexivity | assumption | assumption].
    + rewrite E1, E2, E3 in *. simpl in *.
      rewrite IH; [reflexivity | assumption | assumption].
Qed.

(** A named argument ends at the first comma outside parentheses. *)
Lemma collect_named c more :
  is_comma (fst c) = true ->
  forall a d k,
  scan d (map fst a) = Some 0 ->
  top_comma d (map fst a) = false ->
  collect d (S k) (a ++ c :: more) =
  match collect 0 k more with
  | Some (args, hs, rest) => Some (a :: args, hs, rest)
  | None => None
  end.
Proof.
  intros Hc. apply is_comma_eq in Hc.
  induction a as [|t a IH]; intros d k Hs Htc.
  - simpl in Hs. inversion Hs; subst. simpl app.
    rewrite collect_cons, Hc. simpl. rewrite Nat.sub_0_r.
    destruct (collect 0 k more) as [[[args hs] rest]|]; reflexivity.
  - simpl app. simpl map in Hs, Htc. rewrite scan_cons in Hs.
    rewrite collect_cons. simpl top_comma in Htc. unfold depth_step in *.
    destruct (token_kind (fst t)) as [E|[E|[E|(E1 & E2 & E3)]]].
    + rewrite E in *. simpl in *. rewrite IH by assumption.
      destruct (collect 0 k more) as [[[args hs] rest]|]; reflexivity.
    + rewrite E in *. simpl in *. destruct d as [|d]; [discriminate|].
      rewrite IH by assumption.
      destruct (collect 0 k more) as [[[args hs] rest]|]; reflexivity.
    + rewrite E in *. simpl in *. destruct d as [|d]; [discriminate|].
      simpl in *. rewrite IH by assumption.
      destruct (collect 0 k more) as [[[args hs] rest]|]; reflexivity.
    + rewrite E1, E2, E3 in *. simpl in *. rewrite IH by assumption.
      destruct (collect 0 k more) as [[[args hs] rest]|]; reflexivity.
Qed.

Lemma map_fst_fresh ts : map fst (map fresh ts) = ts.
Proof. induction ts; simpl; congruence. Qed.

Lemma closes_scan d ts : closes d ts = true -> scan d ts = Some 0.
Proof.
  unfold closes. destruct (scan d ts) as [[|n]|]; congruence.
Qed.

Lemma is_argument_inv ts :
  is_argument ts = true -> scan 0 ts = Some 0 /\ top_comma 0 ts = false.
Proof.
  unfold is_argument, balanced. intros H.
  apply andb_true_iff in H as [H1 H2]. apply negb_true_iff in H2.
  split; [now apply closes_scan | assumption].
Qed.

(** ** The replacement lists of the header *)

Lemma ZMK_MACRO_is_node_macro :
  is_node_macro ZMK_MACRO "zmk,behavior-macro" "0".
Proof. repeat split. Qed.

Lemma ZMK_MACRO1_is_node_macro :
  is_node_macro ZMK_MACRO1 "zmk,behavior-macro-one-param" "1".
Proof. repeat split. Qed.

Lemma ZMK_MACRO2_is_node_macro :
  is_node_macro ZMK_MACRO2 "zmk,behavior-macro-two-param" "2".
Proof. repeat split. Qed.

Lemma node_macros_spec x compat cells :
  In (x, (compat, cells)) node_macros ->
  exists m, m_name m = x /\ is_node_macro m compat cells.
Proof.
  intros [H|[H|[H|[]]]]; inversion H; subst.
  - exists ZMK_MACRO. split; [reflexivity | apply ZMK_MACRO_is_node_macro].
  - exists ZMK_MACRO1. split; [reflexivity | apply ZMK_MACRO1_is_node_macro].
  - exists ZMK_MACRO2. split; [reflexivity | apply ZMK_MACRO2_is_node_macro].
Qed.

Lemma subst_template ex a v a' v' compat cells :
  ex a = Ok a' -> ex v = Ok v' ->
  subst ex [("name", a); (VA_ARGS, v)] (template compat cells)
  = Ok (filled a' compat cells v').
Proof.
  intros Ha Hv. unfold template, filled. simpl. rewrite Ha. simpl.
  rewrite Hv. simpl. reflexivity.
Qed.

Lemma map_fst_hsadd hs ts : map fst (hsadd hs ts) = map fst ts.
Proof. unfold hsadd. rewrite map_map. reflexivity. Qed.

(** *** Recognising an invocation *)

Lemma classify_node_macro m compat cells hs rest :
  is_node_macro m compat cells ->
  hs_mem (m_name m) hs = false ->
  starts_with_lparen rest = true ->
  classify zmk_defines (TId (m_name m), hs) rest = Invocation m ["name"] true.
Proof.
  intros (Hl & Hk & _) Hh Hlp. unfold classify. cbv beta iota delta [fst snd].
  now rewrite Hh, Hl, Hk, Hlp.
Qed.

Lemma bind_args_two (a v : list ptok) :
  bind_args ["name"] true [a; v] = Some [("name", a); (VA_ARGS, v)].
Proof. reflexivity. Qed.

Lemma bind_args_one (a : list ptok) :
  bind_args ["name"] true [a] = Some [("name", a); (VA_ARGS, [])].
Proof. reflexivity. Qed.

(** ** Termination on balanced input *)

Lemma weight_pos t : 1 <= weight t.
Proof. unfold weight. destruct (is_macro_name t); lia. Qed.

Lemma pow2_pos d : 1 <= 2 ^ d.
Proof. induction d; simpl; lia. Qed.

Lemma mu_cons d t rest :
  mu d (t :: rest) = weight t * 2 ^ d + mu (next_depth d (fst t)) rest.
Proof. reflexivity. Qed.

Lemma depth_step_shift c t c' D :
  depth_step c t = Some c' -> depth_step (c + D) t = Some (c' + D).
Proof.
  unfold depth_step. destruct (is_lparen t).
  - intros H; inversion H. reflexivity.
  - destruct (is_rparen t).
    + destruct c; [discriminate|]. intros H; inversion H. reflexivity.
    + intros H; inversion H. reflexivity.
Qed.

Lemma scan_shift D : forall a c c',
  scan c a = Some c' -> scan (c + D) a = Some (c' + D).
Proof.
  induction a as [|t a IH]; intros c c' H.
  - simpl in *. inversion H. reflexivity.
  - rewrite scan_cons in *. destruct (depth_step c t) as [c1|] eqn:E;
      [|discriminate].
    rewrite (depth_step_shift _ _ _ D E). auto.
Qed.

Lemma mu_shift D : forall a c c',
  scan c (map fst a) = Some c' -> mu (c + D) a = 2 ^ D * mu c a.
Proof.
  induction a as [|t a IH]; intros c c' H.
  - simpl. lia.
  - simpl map in H. rewrite scan_cons in H. rewrite !mu_cons.
    unfold next_depth.
    destruct (depth_step c (fst t)) as [c1|] eqn:E; [|discriminate].
    rewrite (depth_step_shift _ _ _ D E), (IH _ _ H), Nat.pow_add_r.
    ring.
Qed.

Lemma scan_app : forall a d d' b,
  scan d a = Some d' -> scan d (a ++ b) = scan d' b.
Proof.
  induction a as [|t a IH]; intros d d' b H.
  - simpl in *. now inversion H.
  - simpl app. rewrite scan_cons in *.
    destruct (depth_step d t); [auto | discriminate].
Qed.

Lemma mu_app : forall a d d' b,
  scan d (map fst a) = Some d' -> mu d (a ++ b) = mu d a + mu d' b.
Proof.
  induction a as [|t a IH]; intros d d' b H.
  - simpl in *. now inversion H.
  - simpl app. simpl map in H. rewrite scan_cons in H. rewrite !mu_cons.
    unfold next_depth.
    destruct (depth_step d (fst t)); [|discriminate].
    rewrite (IH _ _ _ H). lia.
Qed.

Lemma weight_hsadd hs t : weight (fst t, hs ++ snd t) <= weight t.
Proof.
  destruct t as [[x| | |] h]; unfold weight, is_macro_name;
    cbv beta iota delta [fst snd]; try lia.
  rewrite hs_mem_app.
  destruct (lookup zmk_defines x);
    destruct (hs_mem x hs), (hs_mem x h); simpl; lia.
Qed.

Lemma mu_hsadd hs : forall ts d, mu d (hsadd hs ts) <= mu d ts.
Proof.
  induction ts as [|t ts IH]; intros d; [simpl; lia|].
  change (hsadd hs (t :: ts)) with ((fst t, hs ++ snd t) :: hsadd hs ts).
  rewrite !mu_cons. cbv beta iota delta [fst].
  apply Nat.add_le_mono; [apply Nat.mul_le_mono_r, weight_hsadd | apply IH].
Qed.

Lemma collected_push D P c c1 k t ts :
  P = 2 ^ S D ->
  depth_step c (fst t) = Some c1 ->
  collect c k (t :: ts) = push_first t (collect c1 k ts) ->
  collected D P c1 k ts ->
  collected D P c k (t :: ts).
Proof.
  intros HP Hstep Hcol (args & hs & rest & Hc & Hr & Ha & Hl & Hm).
  destruct args as [|a0 args]; [destruct Ha|]. destruct Ha as [Ha0 Ha].
  exists ((t :: a0) :: args), hs, rest. rewrite Hcol, Hc.
  split; [reflexivity|]. split; [assumption|]. split; [|split].
  - split; [|assumption]. simpl map. now rewrite scan_cons, Hstep.
  - exact Hl.
  - unfold mu_args in *. rewrite !mu_cons. unfold next_depth.
    rewrite Hstep, (depth_step_shift _ _ _ (S D) Hstep).
    rewrite Nat.pow_add_r, <- HP.
    pose proof (weight_pos t). nia.
Qed.

Lemma depth_step_other d t :
  is_lparen t = false -> is_rparen t = false -> depth_step d t = Some d.
Proof. unfold depth_step. now intros -> ->. Qed.

Lemma collect_total D P :
  P = 2 ^ S D ->
  forall ts c k,
  scan (c + S D) (map fst ts) = Some 0 ->
  collected D P c k ts.
Proof.
  intros HP. induction ts as [|t ts IH]; intros c k H.
  - simpl in H. inversion H. lia.
  - simpl map in H. rewrite scan_cons in H.
    destruct (token_kind (fst t)) as [E|[E|[E|(E1 & E2 & E3)]]].
    + apply (collected_push D P c (S c)); auto.
      * now rewrite E.
      * rewrite collect_cons, E. reflexivity.
      * apply IH. rewrite E in H. exact H.
    + destruct c as [|c].
      * rewrite E in H. change (depth_step (0 + S D) RP) with (Some D) in H.
        exists [[]], (snd t), ts. rewrite collect_cons, E.
        split; [reflexivity|]. split; [assumption|].
        split; [split; [reflexivity | constructor]|].
        split; [simpl; lia|].
        rewrite mu_cons. unfold next_depth. rewrite E.
        change (depth_step (0 + S D) RP) with (Some D). simpl mu_args.
        change (0 + S D) with (S D). rewrite <- HP. cbv beta iota.
        pose proof (weight_pos t). nia.
      * apply (collected_push D P (S c) c); auto.
        -- now rewrite E.
        -- rewrite collect_cons, E. reflexivity.
        -- apply IH. rewrite E in H. exact H.
    + rewrite E in H. change (depth_step (c + S D) COMMA) with (Some (c + S D)) in H.
      destruct c as [|c]; [destruct k as [|k]|].
      * apply (collected_push D P 0 0); auto.
        -- now rewrite E.
        -- rewrite collect_cons, E. reflexivity.
      * destruct (IH 0 k H) as (args & hs & rest & Hc & Hr & Ha & Hl & Hm).
        destruct args as [|a0 args]; [destruct Ha|]. destruct Ha as [Ha0 Ha].
        exists ([] :: a0 :: args), hs, rest. rewrite collect_cons, E.
        change (collect 0 (S k) (t :: ts)) with (collect 0 (S k) (t :: ts)).
        replace (if is_rparen COMMA then _ else _)
          with (new_arg (collect 0 k ts))
          by (simpl; now rewrite Nat.sub_0_r).
        rewrite Hc. split; [reflexivity|]. split; [assumption|].
        split; [split; [reflexivity | now constructor]|].
        split; [simpl length in *; lia|].
        rewrite mu_cons. unfold next_depth. rewrite E.
        change (depth_step (0 + S D) COMMA) with (Some (0 + S D)).
        unfold mu_args in *. simpl map. simpl list_sum. simpl mu at 1.
        lia.
      * apply (collected_push D P (S c) (S c)); auto.
        -- now rewrite E.
        -- rewrite collect_cons, E. reflexivity.
    + rewrite (depth_step_other _ _ E1 E2) in H.
      apply (collected_push D P c c); auto.
      * now apply depth_step_other.
      * rewrite collect_cons, E1, E2, E3. reflexivity.
Qed.

Lemma lookup_zmk_defines x m :
  lookup zmk_defines x = Some m ->
  m = MACRO_PLACEHOLDER \/ m = ZMK_MACRO \/ m = ZMK_MACRO1 \/ m = ZMK_MACRO2.
Proof.
  unfold lookup. simpl.
  destruct (String.eqb x "MACRO_PLACEHOLDER"); [intros H; inversion H; auto|].
  destruct (String.eqb x "ZMK_MACRO"); [intros H; inversion H; auto|].
  destruct (String.eqb x "ZMK_MACRO1"); [intros H; inversion H; auto|].
  destruct (String.eqb x "ZMK_MACRO2"); [intros H; inversion H; auto|].
  discriminate.
Qed.

Lemma classify_object t rest m :
  classify zmk_defines t rest = Object m ->
  m = MACRO_PLACEHOLDER /\ weight t = 32 /\
  forall d, depth_step d (fst t) = Some d.
Proof.
  destruct t as [[x| | |] hs]; unfold classify, weight, is_macro_name;
    cbv beta iota delta [fst snd]; try discriminate.
  destruct (hs_mem x hs); [discriminate|].
  destruct (lookup zmk_defines x) as [m'|] eqn:El; [|discriminate].
  destruct (lookup_zmk_defines _ _ El) as [ -> | [ -> | [ -> | -> ] ] ]; simpl;
    try (destruct (starts_with_lparen rest); discriminate).
  intros H. inversion H. auto.
Qed.

Lemma classify_invocation t rest m params variadic :
  classify zmk_defines t rest = Invocation m params variadic ->
  params = ["name"] /\ variadic = true /\
  (exists compat cells, m_body m = template compat cells) /\
  weight t = 32 /\ (forall d, depth_step d (fst t) = Some d) /\
  exists lp rest0, rest = lp :: rest0 /\ fst lp = LP.
Proof.
  destruct t as [[x| | |] hs]; unfold classify, weight, is_macro_name;
    cbv beta iota delta [fst snd]; try discriminate.
  destruct (hs_mem x hs); [discriminate|].
  destruct (lookup zmk_defines x) as [m'|] eqn:El; [|discriminate].
  assert (Hlp : starts_with_lparen rest = true ->
                exists lp rest0, rest = lp :: rest0 /\ fst lp = LP).
  { destruct rest as [|lp rest0]; [discriminate|]. simpl. intros H.
    exists lp, rest0. split; [reflexivity | now apply is_lparen_eq]. }
  destruct (lookup_zmk_defines _ _ El) as [ -> | [ -> | [ -> | -> ] ] ]; simpl;
    try discriminate;
    (destruct (starts_with_lparen rest); [|discriminate]);
    intros H; inversion H; subst; repeat split; auto;
    eexists; eexists; reflexivity.
Qed.

Lemma next_depth_step (t : token) d d' :
  depth_step d t = Some d' -> next_depth d t = d'.
Proof. unfold next_depth. now intros ->. Qed.

Lemma scan_filled a compat cells v :
  scan 0 (map fst a) = Some 0 -> scan 0 (map fst v) = Some 0 ->
  scan 0 (map fst (filled a compat cells v)) = Some 0.
Proof.
  intros Ha Hv. unfold filled.
  rewrite map_app, (scan_app _ _ _ _ Ha), map_cons, scan_cons.
  change (depth_step 0 (fst (fresh (TPunct ":")))) with (Some 0).
  rewrite map_app, (scan_app _ _ _ _ Ha), map_app.
  rewrite (scan_app _ 0 0) by reflexivity.
  rewrite map_app, (scan_app _ _ _ _ Hv). reflexivity.
Qed.

Lemma mu_filled a compat cells v :
  scan 0 (map fst a) = Some 0 -> scan 0 (map fst v) = Some 0 ->
  mu 0 (filled a compat cells v) = 2 * mu 0 a + mu 0 v + 17.
Proof.
  intros Ha Hv. unfold filled.
  rewrite (mu_app _ _ _ _ Ha), mu_cons.
  change (next_depth 0 (fst (fresh (TPunct ":")))) with 0.
  change (weight (fresh (TPunct ":"))) with 1.
  rewrite (mu_app _ _ _ _ Ha).
  rewrite (mu_app _ 0 0) by reflexivity.
  rewrite (mu_app _ _ _ _ Hv).
  change (mu 0 (map fresh closing)) with 2.
  change (mu 0 (map fresh (properties compat cells))) with 14.
  simpl Nat.pow. lia.
Qed.

Lemma bind_args_node args :
  args_closed 0 args -> length args <= 2 ->
  exists a v,
    bind_args ["name"] true args = Some [("name", a); (VA_ARGS, v)] /\
    scan 0 (map fst a) = Some 0 /\ scan 0 (map fst v) = Some 0 /\
    mu 0 a + mu 0 v <= mu_args 0 args.
Proof.
  destruct args as [|a [|v [|w args]]]; simpl; intros Hc Hl; try tauto;
    try lia.
  - exists a, []. simpl. repeat split; try tauto. lia.
  - exists a, v. destruct Hc as [Ha Hv]. inversion Hv; subst.
    repeat split; auto. lia.
Qed.

(** On input whose parentheses pair up (after [d] open ones), expansion
    returns tokens for some amount of fuel, the output is paired up in the
    same way and is no heavier than the input. *)
Lemma expand_converges : forall M d ts,
  mu d ts < M ->
  scan d (map fst ts) = Some 0 ->
  exists n out,
    expand zmk_defines n ts = Ok out /\
    scan d (map fst out) = Some 0 /\
    mu d out <= mu d ts.
Proof.
  induction M as [|M IH]; intros d ts HM Hs; [lia|].
  destruct ts as [|t rest].
  - exists 1, []. auto.
  - simpl map in Hs. rewrite scan_cons in Hs. rewrite mu_cons in HM.
    pose proof (weight_pos t) as Hw. pose proof (pow2_pos d) as Hp.
    destruct (classify zmk_defines t rest) as [|mo|mf params variadic] eqn:Ec.
    + destruct (depth_step d (fst t)) as [d'|] eqn:Ed; [|discriminate].
      rewrite (next_depth_step _ d d' Ed) in HM.
      destruct (IH d' rest) as (n & out & Hout & Hso & Hmo);
        [nia | assumption |].
      exists (S n), (t :: out). rewrite expand_cons, Ec, Hout.
      split; [reflexivity|]. split.
      * simpl map. now rewrite scan_cons, Ed.
      * rewrite !mu_cons, (next_depth_step _ d d' Ed). lia.
    + apply classify_object in Ec as Ho. destruct Ho as (-> & Hw32 & Hd).
      rewrite Hd in Hs. unfold next_depth in HM. rewrite Hd in HM.
      set (new := hsadd (m_name MACRO_PLACEHOLDER :: snd t)
                    (map fresh (m_body MACRO_PLACEHOLDER)) ++ rest).
      assert (Hnew : mu d new = 2 ^ d + mu d rest).
      { change new
          with ((TNum "0", (m_name MACRO_PLACEHOLDER :: snd t) ++ [])
                :: rest).
        rewrite mu_cons.
        change (weight (TNum "0", (m_name MACRO_PLACEHOLDER :: snd t) ++ []))
          with 1.
        change (next_depth d (fst (TNum "0",
                  (m_name MACRO_PLACEHOLDER :: snd t) ++ []))) with d.
        lia. }
      destruct (IH d new) as (n & out & Hout & Hso & Hmo);
        [nia | exact Hs |].
      exists (S n), out. rewrite expand_cons, Ec.
      split; [exact Hout|]. split; [exact Hso|].
      rewrite mu_cons. unfold next_depth. rewrite Hd. nia.
    + apply classify_invocation in Ec as Hi.
      destruct Hi as (-> & -> & (compat & cells & Hbody) & Hw32 & Hd
                      & lp & rest0 & -> & Hlp).
      rewrite Hd in Hs. unfold next_depth in HM. rewrite Hd in HM.
      simpl map in Hs. rewrite scan_cons, Hlp in Hs.
      change (depth_step d LP) with (Some (0 + S d)) in Hs.
      rewrite mu_cons in HM. unfold next_depth in HM. rewrite Hlp in HM.
      change (depth_step d LP) with (Some (0 + S d)) in HM.
      pose proof (weight_pos lp) as Hwl.
      destruct (collect_total d (2 ^ S d) eq_refl rest0 0 1 Hs)
        as (args & hs' & rest' & Hcol & Hsr & Hac & Hlen & Hmu).
      destruct (bind_args_node args Hac Hlen)
        as (a & v & Hbind & Hsa & Hsv & Hmav).
      change (2 ^ S d) with (2 * 2 ^ d) in Hmu.
      destruct (IH 0 a) as (na & a' & Hea & Hsa' & Hma'); [nia | exact Hsa |].
      destruct (IH 0 v) as (nv & v' & Hev & Hsv' & Hmv'); [nia | exact Hsv |].
      set (new := hsadd (m_name mf :: hs_inter (snd t) hs')
                    (filled a' compat cells v') ++ rest').
      pose proof (scan_filled a' compat cells v' Hsa' Hsv') as Hsf.
      assert (Hsf' : scan d (map fst (hsadd (m_name mf :: hs_inter (snd t) hs')
                                        (filled a' compat cells v')))
                     = Some d).
      { rewrite map_fst_hsadd. apply (scan_shift d _ 0 0 Hsf). }
      assert (Hsnew : scan d (map fst new) = Some 0).
      { unfold new. rewrite map_app, (scan_app _ _ _ _ Hsf'). exact Hsr. }
      assert (Hmnew : mu d new
                      <= 2 ^ d * (2 * mu 0 a' + mu 0 v' + 17) + mu d rest').
      { unfold new. rewrite (mu_app _ _ _ _ Hsf').
        pose proof (mu_hsadd (m_name mf :: hs_inter (snd t) hs')
                      (filled a' compat cells v') d) as Hh.
        pose proof (mu_shift d _ 0 0 Hsf) as Hsh. simpl plus in Hsh.
        rewrite Hsh, mu_filled in Hh by assumption. lia. }
      destruct (IH d new) as (n2 & out & Hout & Hso & Hmo);
        [nia | exact Hsnew |].
      exists (S (Nat.max (Nat.max na nv) n2)), out.
      rewrite expand_cons, Ec. simpl tl. simpl length. rewrite Hcol, Hbind, Hbody.
      rewrite (subst_template _ a v a' v');
        [| apply (expand_mono _ na); [assumption | lia]
         | apply (expand_mono _ nv); [assumption | lia]].
      simpl bind. split; [|split].
      * apply (expand_mono _ n2); [exact Hout | lia].
      * exact Hso.
      * rewrite !mu_cons. unfold next_depth. rewrite Hd, Hlp.
        change (depth_step d LP) with (Some (0 + S d)). nia.
Qed.

(** ** Invocations of the node macros, with arbitrary arguments *)

Lemma classify_not_identifier defs t rest :
  is_identifier (fst t) = false -> classify defs t rest = Plain.
Proof. unfold classify. destruct (fst t); [discriminate | auto ..]. Qed.

(** Inert tokens whose last one is no identifier are copied whatever
    follows them. *)
Lemma expand_inert_then defs t post opost np :
  is_identifier (fst t) = false ->
  expand defs np post = Ok opost ->
  forall Y,
  inert defs (Y ++ [t]) = true ->
  expand defs (length Y + 1 + np) ((Y ++ [t]) ++ post)
  = Ok ((Y ++ [t]) ++ opost).
Proof.
  intros Ht Hp. induction Y as [|y Y IH]; intros Hi.
  - simpl. rewrite (classify_not_identifier _ _ _ Ht), Hp. reflexivity.
  - change (length (y :: Y) + 1 + np) with (S (length Y + 1 + np)).
    change (((y :: Y) ++ [t]) ++ post) with (y :: (Y ++ [t]) ++ post).
    change ((y :: Y) ++ [t]) with (y :: (Y ++ [t])) in Hi.
    rewrite inert_cons in Hi. rewrite expand_cons.
    assert (Hc : classify defs y ((Y ++ [t]) ++ post)
                 = classify defs y (Y ++ [t]))
      by (destruct Y; reflexivity).
    rewrite Hc. destruct (classify defs y (Y ++ [t])); try discriminate.
    rewrite (IH Hi). reflexivity.
Qed.

Lemma hsadd_app hs a b : hsadd hs (a ++ b) = hsadd hs a ++ hsadd hs b.
Proof. apply map_app. Qed.

Lemma filled_split a compat cells v :
  filled a compat cells v = opening a compat cells v ++ map fresh closing.
Proof.
  unfold filled, opening.
  rewrite <- app_assoc, <- app_comm_cons, <- !app_assoc. reflexivity.
Qed.

Lemma scan_opening a compat cells v :
  scan 0 (map fst a) = Some 0 -> scan 0 (map fst v) = Some 0 ->
  scan 0 (map fst (opening a compat cells v)) = Some 0.
Proof.
  intros Ha Hv. unfold opening.
  rewrite map_app, (scan_app _ _ _ _ Ha), map_cons, scan_cons.
  change (depth_step 0 (fst (fresh (TPunct ":")))) with (Some 0).
  rewrite map_app, (scan_app _ _ _ _ Ha), map_app.
  rewrite (scan_app _ 0 0) by reflexivity. exact Hv.
Qed.

Lemma fresh_call x name va post :
  map fresh (call x name va) ++ post
  = (TId x, []) :: fresh LP
      :: map fresh name ++ fresh COMMA :: map fresh va ++ fresh RP :: post.
Proof.
  unfold call. simpl map. rewrite map_app. simpl map. rewrite map_app.
  simpl map. simpl app. rewrite <- !app_assoc. simpl app.
  rewrite <- app_assoc. reflexivity.
Qed.

Lemma fresh_call0 x name post :
  map fresh (call0 x name) ++ post
  = (TId x, []) :: fresh LP :: map fresh name ++ fresh RP :: post.
Proof.
  unfold call0. simpl map. rewrite map_app. simpl map. simpl app.
  rewrite <- app_assoc. reflexivity.
Qed.

Lemma expand_balanced ts :
  scan 0 (map fst ts) = Some 0 ->
  exists n out,
    expand zmk_defines n ts = Ok out /\ scan 0 (map fst out) = Some 0.
Proof.
  intros H.
  destruct (expand_converges (S (mu 0 ts)) 0 ts (Nat.lt_succ_diag_r _) H)
    as (n & out & Ho & Hs & _).
  eauto.
Qed.

(** *** Arguments without nested invocations *)

Lemma classify_plain_token t rest :
  classify zmk_defines (fresh t) rest = Plain -> replace_placeholder t = t.
Proof.
  destruct t as [x| | |]; auto. unfold classify, lookup. simpl.
  destruct (String.eqb x "MACRO_PLACEHOLDER"); [discriminate | reflexivity].
Qed.

Lemma classify_object_token t rest m :
  classify zmk_defines (fresh t) rest = Object m ->
  replace_placeholder t = TNum "0".
Proof.
  destruct t as [x| | |]; try discriminate. unfold classify, lookup. simpl.
  destruct (String.eqb x "MACRO_PLACEHOLDER"); [reflexivity|].
  destruct (String.eqb x "ZMK_MACRO");
    [destruct (starts_with_lparen rest); discriminate|].
  destruct (String.eqb x "ZMK_MACRO1");
    [destruct (starts_with_lparen rest); discriminate|].
  destruct (String.eqb x "ZMK_MACRO2");
    [destruct (starts_with_lparen rest); discriminate|].
  discriminate.
Qed.

Lemma classify_same_start defs t a b :
  starts_with_lparen a = starts_with_lparen b ->
  classify defs t a = classify defs t b.
Proof. intros H. unfold classify. now rewrite H. Qed.

(** Such arguments are expanded by replacing [MACRO_PLACEHOLDER], and the
    result is inert. *)
Lemma expand_call_free :
  forall ts n, call_free ts = true -> 2 * length ts < n ->
  exists o,
    expand zmk_defines n (map fresh ts) = Ok o /\
    map fst o = placeholders_replaced ts /\
    inert zmk_defines o = true /\
    starts_with_lparen o = starts_with_lparen (map fresh ts).
Proof.
  induction ts as [|t rest IH]; intros n Hcf Hn.
  - destruct n; [simpl in Hn; lia|]. exists []. auto.
  - destruct n as [|n]; [lia|]. simpl length in Hn.
    simpl map. rewrite expand_cons. simpl in Hcf.
    destruct (classify zmk_defines (fresh t) (map fresh rest))
      as [|mo|mf params variadic] eqn:Ec; [| |discriminate].
    + destruct (IH n Hcf) as (o & Ho & Hm & Hi & Hl); [lia|].
      exists (fresh t :: o). rewrite Ho.
      split; [reflexivity|]. split; [|split; [|reflexivity]].
      * simpl. unfold placeholders_replaced in *. simpl.
        now rewrite Hm, (classify_plain_token _ _ Ec).
      * rewrite inert_cons, (classify_same_start _ _ _ _ Hl), Ec. exact Hi.
    + pose proof (classify_object_token _ _ _ Ec) as Hrep.
      apply classify_object in Ec as (-> & _ & Hd).
      destruct n as [|n]; [lia|].
      destruct (IH n Hcf) as (o & Ho & Hm & Hi & Hl); [lia|].
      set (zero := (TNum "0", [m_name MACRO_PLACEHOLDER] ++ []) : ptok).
      exists (zero :: o).
      change (hsadd (m_name MACRO_PLACEHOLDER :: snd (fresh t))
                (map fresh (m_body MACRO_PLACEHOLDER)) ++ map fresh rest)
        with (zero :: map fresh rest).
      rewrite expand_cons, (classify_not_identifier _ zero) by reflexivity.
      rewrite Ho. split; [reflexivity|]. split; [|split].
      * simpl. unfold placeholders_replaced in *. simpl.
        now rewrite Hm, Hrep.
      * rewrite inert_cons, (classify_not_identifier _ zero) by reflexivity.
        exact Hi.
      * simpl. specialize (Hd 0). unfold depth_step in Hd. simpl in Hd.
        destruct (is_lparen t); [discriminate | reflexivity].
Qed.

Lemma placeholders_replaced_id ts :
  ~ In (TId "MACRO_PLACEHOLDER") ts -> placeholders_replaced ts = ts.
Proof.
  unfold placeholders_replaced. induction ts as [|t ts IH]; intros H.
  - reflexivity.
  - simpl. rewrite IH by (intros Hin; apply H; now right). f_equal.
    destruct t as [x| | |]; auto. simpl.
    destruct (String.eqb x "MACRO_PLACEHOLDER") eqn:E; [|reflexivity].
    apply String.eqb_eq in E. subst. exfalso. apply H. now left.
Qed.

(** The first step of an invocation: both arguments are expanded on their
    own and put into the replacement list, which is then scanned again
    together with what follows the invocation. *)
Lemma expand_call_step m compat cells name va :
  is_node_macro m compat cells ->
  is_argument name = true -> balanced va = true ->
  exists a' v' N,
    scan 0 (map fst a') = Some 0 /\ scan 0 (map fst v') = Some 0 /\
    (call_free name = true ->
     inert zmk_defines a' = true /\ map fst a' = placeholders_replaced name) /\
    (call_free va = true ->
     inert zmk_defines v' = true /\ map fst v' = placeholders_replaced va) /\
    (forall post n, N <= n ->
       expand zmk_defines (S n) (map fresh (call (m_name m) name va) ++ post)
       = expand zmk_defines n
           (hsadd [m_name m] (filled a' compat cells v') ++ post)) /\
    (va = [] ->
     forall post n, N <= n ->
       expand zmk_defines (S n) (map fresh (call0 (m_name m) name) ++ post)
       = expand zmk_defines n
           (hsadd [m_name m] (filled a' compat cells v') ++ post)).
Proof.
  intros Hm Hn Hv. apply is_argument_inv in Hn as [Hn1 Hn2].
  apply closes_scan in Hv.
  destruct (expand_balanced (map fresh name)) as (na & a' & Hea & Hsa);
    [now rewrite map_fst_fresh|].
  destruct (expand_balanced (map fresh va)) as (nv & v' & Hev & Hsv);
    [now rewrite map_fst_fresh|].
  exists a', v', (Nat.max na nv).
  split; [assumption|]. split; [assumption|]. split; [|split; [|split]].
  - intros Hi.
    destruct (expand_call_free name (S (2 * length name)) Hi
                (Nat.lt_succ_diag_r _)) as (o & Ho & Hmo & Hio & _).
    rewrite (expand_deterministic _ _ _ _ _ _ Hea Ho). auto.
  - intros Hi.
    destruct (expand_call_free va (S (2 * length va)) Hi
                (Nat.lt_succ_diag_r _)) as (o & Ho & Hmo & Hio & _).
    rewrite (expand_deterministic _ _ _ _ _ _ Hev Ho). auto.
  - intros post n Hle. rewrite fresh_call, expand_cons.
    rewrite (classify_node_macro m compat cells) by (auto; reflexivity).
    simpl tl. simpl length.
    rewrite (collect_named (fresh COMMA)); try reflexivity;
      try (rewrite map_fst_fresh; assumption).
    rewrite (collect_last (fresh RP));
      [| reflexivity | rewrite map_fst_fresh; assumption | now right].
    rewrite bind_args_two. destruct Hm as (_ & _ & Hb). rewrite Hb.
    rewrite (subst_template _ _ _ a' v');
      [| apply (expand_mono _ na); [assumption | lia]
       | apply (expand_mono _ nv); [assumption | lia]].
    reflexivity.
  - intros -> post n Hle. rewrite fresh_call0, expand_cons.
    rewrite (classify_node_macro m compat cells) by (auto; reflexivity).
    simpl tl. simpl length.
    rewrite (collect_last (fresh RP));
      [| reflexivity | rewrite map_fst_fresh; assumption
       | left; rewrite map_fst_fresh; assumption].
    rewrite bind_args_one. destruct Hm as (_ & _ & Hb). rewrite Hb.
    rewrite (subst_template _ _ _ a' v');
      [| apply (expand_mono _ na); [assumption | lia]
       | apply (expand_mono _ nv); [assumption | lia]].
    reflexivity.
Qed.

(** Balanced tokens followed by inert ones: the two parts are expanded
    independently of each other and of what comes after them. *)
Lemma rescan X Y t :
  scan 0 (map fst X) = Some 0 ->
  inert zmk_defines (Y ++ [t]) = true ->
  is_identifier (fst t) = false ->
  starts_with_lparen (Y ++ [t]) = false ->
  exists oX nX,
    expand zmk_defines nX X = Ok oX /\
    forall post opost np,
      expand zmk_defines np post = Ok opost ->
      expand zmk_defines (nX + (length Y + 1 + np)) (X ++ (Y ++ [t]) ++ post)
      = Ok (oX ++ (Y ++ [t]) ++ opost).
Proof.
  intros HX Hi Ht Hlp.
  destruct (expand_balanced X HX) as (nX & oX & HoX & _).
  exists oX, nX. split; [assumption|]. intros post opost np Hp.
  apply expand_app; [assumption | |].
  - now apply expand_inert_then.
  - destruct Y; exact Hlp.
Qed.

(** *** The preprocessor on plain tokens *)

Lemma cpp_ok n ts o :
  expand zmk_defines n (map fresh ts) = Ok o -> cpp n ts = Ok (map fst o).
Proof. unfold cpp, preprocess. now intros ->. Qed.

Lemma cpp_inv n ts out :
  cpp n ts = Ok out ->
  exists o, expand zmk_defines n (map fresh ts) = Ok o /\ out = map fst o.
Proof.
  unfold cpp, preprocess. intros H. apply bind_ok in H as (o & Ho & H).
  exists o. split; [assumption | congruence].
Qed.

Lemma cpp_mono n m ts out : cpp n ts = Ok out -> n <= m -> cpp m ts = Ok out.
Proof.
  intros H Hle. apply cpp_inv in H as (o & Ho & ->).
  apply cpp_ok. now apply (expand_mono _ n).
Qed.

Lemma cpp_deterministic n m ts a b :
  cpp n ts = Ok a -> cpp m ts = Ok b -> a = b.
Proof.
  intros Ha Hb. apply cpp_inv in Ha as (oa & Ha & ->).
  apply cpp_inv in Hb as (ob & Hb & ->).
  now rewrite (expand_deterministic _ _ _ _ _ _ Ha Hb).
Qed.

Lemma expands_to_intro n ts out : cpp n ts = Ok out -> expands_to ts out.
Proof. intros H. exists n. intros m Hm. now apply (cpp_mono n). Qed.

Lemma expands_to_expand ts o n :
  expand zmk_defines n (map fresh ts) = Ok o -> expands_to ts (map fst o).
Proof. intros H. apply (expands_to_intro n). now apply cpp_ok. Qed.

Lemma expands_to_inv ts out :
  expands_to ts out ->
  exists n o, expand zmk_defines n (map fresh ts) = Ok o /\ out = map fst o.
Proof.
  intros (N & H). destruct (cpp_inv N ts out (H N (le_n N))) as (o & Ho & E).
  eauto.
Qed.

Lemma expands_to_unique ts a b : expands_to ts a -> expands_to ts b -> a = b.
Proof.
  intros (Na & Ha) (Nb & Hb).
  exact (cpp_deterministic _ _ _ _ _ (Ha Na (le_n _)) (Hb Nb (le_n _))).
Qed.

Lemma expands_to_nil : expands_to [] [].
Proof. now apply (expands_to_intro 1). Qed.

(** Any balanced token sequence is expanded without error. *)
Lemma expands_to_total ts :
  balanced ts = true -> exists out, expands_to ts out.
Proof.
  intros H. apply closes_scan in H.
  destruct (expand_balanced (map fresh ts)) as (n & o & Ho & _);
    [now rewrite map_fst_fresh|].
  exists (map fst o). now apply (expands_to_expand _ _ n).
Qed.

(** Expansion distributes over concatenation, unless the second part starts
    with an opening parenthesis. *)
Lemma expands_to_app xs ox ys oy :
  expands_to xs ox -> expands_to ys oy ->
  starts_with_lparen (map fresh ys) = false ->
  expands_to (xs ++ ys) (ox ++ oy).
Proof.
  intros Hx Hy Hlp.
  apply expands_to_inv in Hx as (n & o1 & H1 & ->).
  apply expands_to_inv in Hy as (m & o2 & H2 & ->).
  rewrite <- map_app. apply (expands_to_expand _ _ (n + m)).
  rewrite map_app. now apply expand_app.
Qed.

Lemma inert_header a :
  inert zmk_defines a = true ->
  inert zmk_defines (a ++ fresh (TPunct ":") :: a) = true.
Proof.
  intros H. apply inert_app; [assumption | | reflexivity].
  rewrite inert_cons. exact H.
Qed.

(** The shape of every invocation of a node macro.  [front] is the output
    before the closing brace. *)
Lemma node_call_general m compat cells name va :
  is_node_macro m compat cells ->
  is_argument name = true -> balanced va = true ->
  exists front,
    (forall post opost, expands_to post opost ->
       expands_to (call (m_name m) name va ++ post)
                  (front ++ closing ++ opost)) /\
    (va = [] ->
     forall post opost, expands_to post opost ->
       expands_to (call0 (m_name m) name ++ post)
                  (front ++ closing ++ opost)) /\
    (call_free name = true ->
     exists body,
       front = placeholders_replaced name
               ++ TPunct ":" :: placeholders_replaced name
               ++ TPunct "{" :: body) /\
    (call_free va = true ->
     exists header,
       front = header ++ properties compat cells ++ placeholders_replaced va /\
       (call_free name = true ->
        header = placeholders_replaced name
                 ++ TPunct ":" :: placeholders_replaced name)).
Proof.
  intros Hm Hn Hv.
  destruct (expand_call_step m compat cells name va Hm Hn Hv)
    as (a' & v' & N & Hsa & Hsv & Hia & Hiv & Hcall & Hcall0).
  set (H := [m_name m]) in *.
  assert (HsX : scan 0 (map fst (hsadd H (opening a' compat cells v')))
                = Some 0)
    by (rewrite map_fst_hsadd; now apply scan_opening).
  destruct (rescan (hsadd H (opening a' compat cells v'))
              [(TPunct "}", H ++ [])] (TPunct ";", H ++ []) HsX
              eq_refl eq_refl eq_refl)
    as (oX & nX & HoX & Hres).
  assert (Hafter : forall post opost,
            expands_to post opost ->
            exists n0 o,
              (forall n, n0 <= n ->
                 expand zmk_defines n
                   (hsadd H (filled a' compat cells v') ++ map fresh post)
                 = Ok o) /\
              map fst o = map fst oX ++ closing ++ opost).
  { intros post opost Hp. apply expands_to_inv in Hp as (np & o' & Hp & ->).
    exists (nX + (1 + 1 + np)),
           (oX ++ ([(TPunct "}", H ++ [])] ++ [(TPunct ";", H ++ [])]) ++ o').
    split.
    - intros n Hle. apply (expand_mono _ (nX + (1 + 1 + np))); [|lia].
      rewrite filled_split, hsadd_app, <- app_assoc.
      exact (Hres _ _ _ Hp).
    - rewrite !map_app. reflexivity. }
  exists (map fst oX). split; [|split; [|split]].
  - intros post opost Hp.
    destruct (Hafter post opost Hp) as (n0 & o & Ho & Hmap).
    exists (S (Nat.max N n0)). intros n Hle. destruct n as [|n]; [lia|].
    rewrite <- Hmap. apply cpp_ok. rewrite map_app, Hcall by lia.
    apply Ho. lia.
  - intros Hva post opost Hp.
    destruct (Hafter post opost Hp) as (n0 & o & Ho & Hmap).
    exists (S (Nat.max N n0)). intros n Hle. destruct n as [|n]; [lia|].
    rewrite <- Hmap. apply cpp_ok. rewrite map_app, Hcall0 by (auto; lia).
    apply Ho. lia.
  - intros Hi. destruct (Hia Hi) as [Hin' Hma].
    set (X1 := hsadd H (a' ++ fresh (TPunct ":") :: a')).
    set (X2 := hsadd H (map fresh (tl (properties compat cells)) ++ v')).
    set (lb := (TPunct "{", H ++ []) : ptok).
    assert (Heq : hsadd H (opening a' compat cells v')
                  = (X1 ++ [lb]) ++ X2).
    { unfold X1, X2, opening.
      change [lb] with (hsadd H [fresh (TPunct "{")]).
      rewrite <- !hsadd_app. f_equal. rewrite <- !app_assoc. reflexivity. }
    assert (Hs2 : scan 0 (map fst X2) = Some 0).
    { unfold X2. rewrite map_fst_hsadd, map_app.
      rewrite (scan_app _ 0 0) by reflexivity. exact Hsv. }
    destruct (expand_balanced X2 Hs2) as (n2 & o2 & Ho2 & _).
    assert (Hin : inert zmk_defines (X1 ++ [lb]) = true).
    { change [lb] with (hsadd H [fresh (TPunct "{")]).
      unfold X1. rewrite <- hsadd_app. apply inert_hsadd.
      apply inert_app; [now apply inert_header | reflexivity | reflexivity]. }
    pose proof (expand_inert_then zmk_defines lb X2 o2 n2
                  eq_refl Ho2 X1 Hin) as Hex.
    assert (Hex' : expand zmk_defines (length X1 + 1 + n2)
                     (hsadd H (opening a' compat cells v'))
                   = Ok ((X1 ++ [lb]) ++ o2))
      by (rewrite Heq; exact Hex).
    pose proof (expand_deterministic _ _ _ _ _ _ HoX Hex') as ->.
    exists (map fst o2). unfold X1.
    rewrite !map_app, map_fst_hsadd, map_app, map_cons.
    unfold ptok in *. rewrite !Hma, <- !app_assoc. reflexivity.
  - intros Hiv'. destruct (Hiv Hiv') as [Hinv Hmv].
    set (X3 := hsadd H (a' ++ fresh (TPunct ":") :: a')).
    set (Y := hsadd H (map fresh (removelast (properties compat cells)))).
    set (sc := (TPunct ";", H ++ []) : ptok).
    set (V := hsadd H v').
    assert (Heq : hsadd H (opening a' compat cells v')
                  = X3 ++ (Y ++ [sc]) ++ V).
    { unfold X3, V, opening.
      change (Y ++ [sc])
        with (hsadd H (map fresh (properties compat cells))).
      rewrite <- !hsadd_app. f_equal. rewrite <- app_assoc. reflexivity. }
    assert (Hs3 : scan 0 (map fst X3) = Some 0).
    { unfold X3. rewrite map_fst_hsadd, map_app.
      rewrite (scan_app _ _ _ _ Hsa), map_cons, scan_cons. exact Hsa. }
    assert (HinY : inert zmk_defines (Y ++ [sc]) = true).
    { change (Y ++ [sc])
        with (hsadd H (map fresh (properties compat cells))).
      now apply inert_hsadd. }
    destruct (rescan X3 Y sc Hs3 HinY eq_refl eq_refl)
      as (o3 & n3 & Ho3 & Hres3).
    assert (HV : expand zmk_defines (S (length V)) V = Ok V)
      by (apply expand_inert; [now apply inert_hsadd | lia]).
    pose proof (Hres3 V V _ HV) as Hex.
    assert (Hex' : expand zmk_defines (n3 + (length Y + 1 + S (length V)))
                     (hsadd H (opening a' compat cells v'))
                   = Ok (o3 ++ (Y ++ [sc]) ++ V))
      by (rewrite Heq; exact Hex).
    pose proof (expand_deterministic _ _ _ _ _ _ HoX Hex') as ->.
    exists (map fst o3). split.
    + unfold V. rewrite !map_app, map_fst_hsadd.
      unfold ptok in *. rewrite Hmv. reflexivity.
    + intros Hi. destruct (Hia Hi) as [Hin' Hma].
      assert (Hin : inert zmk_defines X3 = true)
        by (apply inert_hsadd; now apply inert_header).
      pose proof (expand_inert zmk_defines X3 (S (length X3)) Hin
                    (Nat.lt_succ_diag_r _)) as Hex3.
      pose proof (expand_deterministic _ _ _ _ _ _ Ho3 Hex3) as ->.
      unfold X3. rewrite map_fst_hsadd, map_app, map_cons.
      unfold ptok in *. rewrite !Hma. reflexivity.
Qed.

(** *** Errors *)

Lemma emit_err t r e : emit t r = Err e -> r = Err e.
Proof. destruct r; simpl; [discriminate | auto]. Qed.

Lemma subst_template_err_name ex a v e compat cells :
  ex a = Err e ->
  subst ex [("name", a); (VA_ARGS, v)] (template compat cells) = Err e.
Proof. intros Ha. unfold template. simpl. now rewrite Ha. Qed.

Lemma subst_template_err_va ex a v a' e compat cells :
  ex a = Ok a' -> ex v = Err e ->
  subst ex [("name", a); (VA_ARGS, v)] (template compat cells) = Err e.
Proof.
  intros Ha Hv. unfold template. simpl. rewrite Ha. simpl. now rewrite Hv.
Qed.

Lemma expand_ok_scan n d ts out :
  scan d (map fst ts) = Some 0 ->
  expand zmk_defines n ts = Ok out ->
  scan d (map fst out) = Some 0.
Proof.
  intros Hs Ho.
  destruct (expand_converges (S (mu d ts)) d ts (Nat.lt_succ_diag_r _) Hs)
    as (n' & out' & Ho' & Hs' & _).
  now rewrite (expand_deterministic _ _ _ _ _ _ Ho Ho').
Qed.

(** On balanced input the only error is a lack of fuel. *)
Lemma expand_no_error n :
  forall d ts e,
  scan d (map fst ts) = Some 0 ->
  expand zmk_defines n ts = Err e -> e = OutOfFuel.
Proof.
  induction n as [|n IH]; intros d ts e Hs He.
  - simpl in He. congruence.
  - destruct ts as [|t rest]; [discriminate|].
    simpl map in Hs. rewrite scan_cons in Hs. rewrite expand_cons in He.
    destruct (classify zmk_defines t rest) as [|mo|mf params variadic] eqn:Ec.
    + destruct (depth_step d (fst t)) as [d'|]; [|discriminate].
      apply emit_err in He. eauto.
    + apply classify_object in Ec as (-> & _ & Hd). rewrite Hd in Hs.
      eapply (IH d); [|exact He]. exact Hs.
    + apply classify_invocation in Ec
        as (-> & -> & (compat & cells & Hbody) & _ & Hd
            & lp & rest0 & -> & Hlp).
      rewrite Hd in Hs. simpl map in Hs. rewrite scan_cons, Hlp in Hs.
      change (depth_step d LP) with (Some (0 + S d)) in Hs.
      destruct (collect_total d (2 ^ S d) eq_refl rest0 0 1 Hs)
        as (args & hs' & rest' & Hcol & Hsr & Hac & Hlen & _).
      destruct (bind_args_node args Hac Hlen)
        as (a & v & Hbind & Hsa & Hsv & _).
      simpl tl in He. simpl length in He.
      rewrite Hcol, Hbind, Hbody in He.
      destruct (expand zmk_defines n a) as [a'|ea] eqn:Ea.
      * destruct (expand zmk_defines n v) as [v'|ev] eqn:Ev.
        -- rewrite (subst_template _ a v a' v' compat cells Ea Ev) in He.
           simpl bind in He. eapply (IH d); [|exact He].
           rewrite map_app, map_fst_hsadd.
           pose proof (scan_filled a' compat cells v'
                         (expand_ok_scan _ _ _ _ Hsa Ea)
                         (expand_ok_scan _ _ _ _ Hsv Ev)) as Hsf.
           rewrite (scan_app _ d d); [exact Hsr|].
           exact (scan_shift d _ 0 0 Hsf).
        -- rewrite (subst_template_err_va _ a v a' ev compat cells Ea Ev)
             in He.
           simpl in He. inversion He; subst. eauto.
      * rewrite (subst_template_err_name _ a v ea compat cells Ea) in He.
        simpl in He. inversion He; subst. eauto.
Qed.

Lemma cpp_no_error ts out n :
  balanced ts = true -> expands_to ts out ->
  cpp n ts = Ok out \/ cpp n ts = Err OutOfFuel.
Proof.
  intros Hb (N & HN). apply closes_scan in Hb.
  destruct (cpp n ts) as [o|e] eqn:E.
  - left. f_equal. exact (cpp_deterministic _ _ _ _ _ E (HN N (le_n N))).
  - right. f_equal. unfold cpp, preprocess in E.
    destruct (expand zmk_defines n (map fresh ts)) as [o|e'] eqn:E';
      [discriminate|].
    simpl in E. inversion E; subst.
    apply (expand_no_error n 0 (map fresh ts)); [|assumption].
    now rewrite map_fst_fresh.
Qed.

(** Where the errors are: an invocation whose closing parenthesis is
    missing has no arguments to speak of, and the preprocessor rejects it. *)
Example unterminated_invocation :
  balanced [TId "ZMK_MACRO"; LP; TId "a"] = false /\
  forall n, cpp (S n) [TId "ZMK_MACRO"; LP; TId "a"]
            = Err (Unterminated "ZMK_MACRO").
Proof. split; reflexivity. Qed.

Lemma scan_balanced ts : scan 0 ts = Some 0 -> balanced ts = true.
Proof. unfold balanced, closes. now intros ->. Qed.

Lemma balanced_call x name va :
  balanced name = true -> balanced va = true ->
  balanced (call x name va) = true.
Proof.
  intros Hn Hv. apply closes_scan in Hn, Hv. apply scan_balanced.
  unfold call.
  change (scan 0 (TId x :: LP :: name ++ COMMA :: va ++ [RP]))
    with (scan (0 + 1) (name ++ COMMA :: va ++ [RP])).
  rewrite (scan_app _ _ _ _ (scan_shift 1 _ _ _ Hn)).
  change (scan (0 + 1) (COMMA :: va ++ [RP]))
    with (scan (0 + 1) (va ++ [RP])).
  rewrite (scan_app _ _ _ _ (scan_shift 1 _ _ _ Hv)). reflexivity.
Qed.

Lemma balanced_call0 x name :
  balanced name = true -> balanced (call0 x name) = true.
Proof.
  intros Hn. apply closes_scan in Hn. apply scan_balanced.
  unfold call0.
  change (scan 0 (TId x :: LP :: name ++ [RP]))
    with (scan (0 + 1) (name ++ [RP])).
  rewrite (scan_app _ _ _ _ (scan_shift 1 _ _ _ Hn)). reflexivity.
Qed.

(** *** Invocations without nested invocations *)

Lemma node_macro_plain m compat cells name va :
  is_node_macro m compat cells ->
  is_argument name = true -> balanced va = true ->
  call_free name = true -> call_free va = true ->
  expands_to (call (m_name m) name va)
    (node (placeholders_replaced name) compat cells
          (placeholders_replaced va)) /\
  (va = [] ->
   expands_to (call0 (m_name m) name)
     (node (placeholders_replaced name) compat cells [])).
Proof.
  intros Hm Hn Hv Hcn Hcv.
  destruct (node_call_general m compat cells name va Hm Hn Hv)
    as (front & H1 & H0 & _ & H5).
  destruct (H5 Hcv) as (header & -> & Hh). rewrite (Hh Hcn) in *.
  split.
  - pose proof (H1 [] [] expands_to_nil) as H.
    rewrite !app_nil_r, <- !app_assoc in H. exact H.
  - intros ->. pose proof (H0 eq_refl [] [] expands_to_nil) as H.
    rewrite !app_nil_r, <- !app_assoc in H. exact H.
Qed.

(** *** Braces *)

Lemma replace_placeholder_brace t :
  is_lbrace (replace_placeholder t) = is_lbrace t /\
  is_rbrace (replace_placeholder t) = is_rbrace t.
Proof.
  destruct t as [x| | |]; simpl; auto.
  destruct (String.eqb x "MACRO_PLACEHOLDER"); split; reflexivity.
Qed.

Lemma brace_free_replaced ts :
  brace_free (placeholders_replaced ts) = brace_free ts.
Proof.
  unfold brace_free, placeholders_replaced.
  induction ts as [|t ts IH]; [reflexivity|]. simpl.
  destruct (replace_placeholder_brace t) as [-> ->]. now rewrite IH.
Qed.

Lemma brace_scan_replaced ts :
  forall d, brace_scan d (placeholders_replaced ts) = brace_scan d ts.
Proof.
  induction ts as [|t ts IH]; intros d; [reflexivity|]. simpl.
  unfold brace_step. destruct (replace_placeholder_brace t) as [-> ->].
  destruct (is_lbrace t); [apply IH|].
  destruct (is_rbrace t); [destruct d; [reflexivity | apply IH] | apply IH].
Qed.

Lemma single_node_skip h rest :
  brace_free h = true -> single_node (h ++ rest) = single_node rest.
Proof.
  unfold brace_free. induction h as [|t h IH]; [reflexivity|]. simpl.
  intros H. apply andb_true_iff in H as [Ht Hh].
  apply negb_true_iff, orb_false_iff in Ht as [-> ->]. now apply IH.
Qed.

Lemma inside_skip h rest :
  brace_free h = true -> forall d, inside d (h ++ rest) = inside d rest.
Proof.
  unfold brace_free. induction h as [|t h IH]; [reflexivity|]. simpl.
  intros H d. apply andb_true_iff in H as [Ht Hh].
  apply negb_true_iff, orb_false_iff in Ht as [-> ->]. now apply IH.
Qed.

(** Braces that pair up inside the body leave the node's own brace open. *)
Lemma inside_scan ts rest :
  forall d d', brace_scan d ts = Some d' ->
  inside d (ts ++ rest) = inside d' rest.
Proof.
  induction ts as [|t ts IH]; intros d d' H.
  - simpl in H. now inversion H.
  - simpl in H. simpl app. unfold brace_step in H.
    change (inside d (t :: ts ++ rest))
      with (if is_lbrace t then inside (S d) (ts ++ rest)
            else if is_rbrace t then
              match d with
              | 0 => match ts ++ rest with
                     | [s] => token_eqb s (TPunct ";")
                     | _ => false
                     end
              | S d0 => inside d0 (ts ++ rest)
              end
            else inside d (ts ++ rest)).
    destruct (is_lbrace t); [now apply IH|].
    destruct (is_rbrace t); [|now apply IH].
    destruct d as [|d0]; [discriminate | now apply IH].
Qed.

Lemma single_node_node name compat cells va :
  brace_free name = true -> braces_paired va = true ->
  single_node (node name compat cells va) = true.
Proof.
  intros Hn Hv. unfold node.
  rewrite (single_node_skip name) by assumption.
  change (single_node
            (TPunct ":" :: name ++ properties compat cells ++ va ++ closing))
    with (single_node (name ++ properties compat cells ++ va ++ closing)).
  rewrite (single_node_skip name) by assumption.
  change (single_node (properties compat cells ++ va ++ closing))
    with (inside 0 (va ++ closing)).
  unfold braces_paired in Hv.
  destruct (brace_scan 0 va) as [[|d]|] eqn:E; try discriminate.
  now rewrite (inside_scan va closing 0 0 E).
Qed.

(** *** Predefined names *)

Lemma ordinary_app E xs ys :
  ordinary E (xs ++ ys) = ordinary E xs && ordinary E ys.
Proof. apply forallb_app. Qed.

Lemma ordinary_cons E t ts :
  ordinary E (t :: ts) = ordinary E [t] && ordinary E ts.
Proof. unfold ordinary, avoids. simpl. now rewrite andb_true_r. Qed.

Lemma ordinary_replaced E ts :
  ordinary E ts = true -> ordinary E (placeholders_replaced ts) = true.
Proof.
  unfold ordinary, avoids, placeholders_replaced.
  induction ts as [|t ts IH]; [reflexivity|]. simpl.
  intros H. apply andb_true_iff in H as [Ht Hts]. rewrite (IH Hts).
  destruct t as [x| | |]; simpl; auto.
  destruct (String.eqb x "MACRO_PLACEHOLDER"); [reflexivity|].
  now rewrite Ht.
Qed.

(** Arguments that use a standard name are not ordinary, whatever the
    environment. *)
Lemma standard_name_not_ordinary E x ts :
  In x standard_names -> In (TId x) ts -> ordinary E ts = false.
Proof.
  intros Hx Hts. pose proof (standard_names_predefined E) as H.
  rewrite forallb_forall in H. specialize (H x Hx).
  destruct (ordinary E ts) eqn:Ho; [|reflexivity].
  unfold ordinary, avoids in Ho. rewrite forallb_forall in Ho.
  specialize (Ho _ Hts). simpl in Ho. now rewrite H in Ho.
Qed.

(** What the header writes into a node is ordinary in every environment. *)
Lemma ordinary_properties E compat cells :
  ordinary E (properties compat cells) = true.
Proof.
  pose proof (header_words_avoid E) as H.
  unfold avoids, header_words, own_tokens in H. simpl in H.
  unfold ordinary, avoids, properties. simpl.
  destruct (predefined E "compatible"); [discriminate|].
  destruct (predefined E "binding"); [discriminate|].
  destruct (predefined E "cells"); [discriminate|]. reflexivity.
Qed.

Lemma ordinary_filled E a compat cells v :
  ordinary E (map fst a) = true -> ordinary E (map fst v) = true ->
  ordinary E (map fst (filled a compat cells v)) = true.
Proof.
  intros Ha Hv. unfold filled.
  rewrite map_app, map_cons, !map_app, !map_fst_fresh.
  rewrite ordinary_app, ordinary_cons, !ordinary_app, ordinary_properties.
  unfold ptok in *. rewrite Ha, Hv. reflexivity.
Qed.

Lemma push_first_some t r args hs rest :
  push_first t r = Some (args, hs, rest) ->
  exists a0 others,
    r = Some (a0 :: others, hs, rest) /\ args = (t :: a0) :: others.
Proof.
  destruct r as [[[[|a0 others] hs0] rest0]|]; simpl; try discriminate.
  intros H. inversion H; subst. eauto.
Qed.

Lemma push_first_ordinary E t r args hs rest :
  push_first t r = Some (args, hs, rest) ->
  ordinary E [fst t] = true ->
  (forall args' , r = Some (args', hs, rest) ->
     Forall (fun a => ordinary E (map fst a) = true) args') ->
  Forall (fun a => ordinary E (map fst a) = true) args.
Proof.
  intros H Ht Hr. apply push_first_some in H as (a0 & others & -> & ->).
  specialize (Hr _ eq_refl). inversion Hr; subst. constructor; [|assumption].
  simpl map. rewrite ordinary_cons, Ht. assumption.
Qed.

(** The arguments of an invocation and the tokens after it are tokens of
    the input. *)
Lemma collect_ordinary E :
  forall ts c k args hs rest,
  collect c k ts = Some (args, hs, rest) ->
  ordinary E (map fst ts) = true ->
  Forall (fun a => ordinary E (map fst a) = true) args /\
  ordinary E (map fst rest) = true.
Proof.
  induction ts as [|t ts IH]; intros c k args hs rest; [discriminate|].
  rewrite collect_cons. simpl map. rewrite ordinary_cons.
  intros H Ho. apply andb_true_iff in Ho as [Ht Hts].
  assert (Hpush : forall r,
            push_first t r = Some (args, hs, rest) ->
            (forall args', r = Some (args', hs, rest) ->
               Forall (fun a => ordinary E (map fst a) = true) args' /\
               ordinary E (map fst rest) = true) ->
            Forall (fun a => ordinary E (map fst a) = true) args /\
            ordinary E (map fst rest) = true).
  { intros r Hr Hall.
    pose proof Hr as Hr'. apply push_first_some in Hr' as (a0 & others & -> & _).
    split; [|exact (proj2 (Hall _ eq_refl))].
    apply (push_first_ordinary E t _ _ _ _ Hr Ht).
    intros args' E'. inversion E'; subst. exact (proj1 (Hall _ eq_refl)). }
  destruct (is_rparen (fst t)).
  - destruct c as [|c].
    + inversion H; subst. split; [|assumption]. repeat constructor.
    + apply (Hpush _ H). intros args' E'. eapply IH; eassumption.
  - destruct (is_lparen (fst t)).
    + apply (Hpush _ H). intros args' E'. eapply IH; eassumption.
    + destruct (is_comma (fst t) && Nat.eqb c 0 && Nat.ltb 0 k).
      * destruct (collect 0 (k - 1) ts) as [[[args' hs'] rest']|] eqn:Ec;
          simpl in H; [|discriminate].
        inversion H; subst. destruct (IH _ _ _ _ _ Ec Hts) as [Ha Hr].
        split; [|assumption]. constructor; [reflexivity | assumption].
      * apply (Hpush _ H). intros args' E'. eapply IH; eassumption.
Qed.

(** Expansion with this header never produces a predefined name: the
    output consists of tokens of the input and of words of the header. *)
Lemma expand_ordinary E n :
  forall ts out,
  ordinary E (map fst ts) = true ->
  expand zmk_defines n ts = Ok out ->
  ordinary E (map fst out) = true.
Proof.
  induction n as [|n IH]; intros ts out Ho He; [discriminate|].
  destruct ts as [|t rest]; [inversion He; reflexivity|].
  rewrite expand_cons in He. simpl map in Ho. rewrite ordinary_cons in Ho.
  apply andb_true_iff in Ho as [Ht Hrest].
  destruct (classify zmk_defines t rest) as [|mo|mf params variadic] eqn:Ec.
  - apply emit_ok in He as (o & Hr & ->). simpl map.
    rewrite ordinary_cons, Ht. exact (IH _ _ Hrest Hr).
  - apply classify_object in Ec as (-> & _). eapply IH; [|exact He].
    rewrite map_app, map_fst_hsadd, map_fst_fresh, ordinary_app.
    unfold ptok in *. rewrite Hrest. reflexivity.
  - apply classify_invocation in Ec
      as (-> & -> & (compat & cells & Hbody) & _ & _
          & lp & rest0 & -> & Hlp).
    simpl tl in He. simpl length in He.
    simpl map in Hrest. rewrite ordinary_cons in Hrest.
    apply andb_true_iff in Hrest as [_ Hrest0].
    destruct (collect 0 1 rest0) as [[[args hs'] rest']|] eqn:Ecol;
      [|discriminate].
    destruct (collect_ordinary E _ _ _ _ _ _ Ecol Hrest0) as [Hargs Hrest'].
    rewrite Hbody in He.
    assert (Hargs' : exists a v,
              bind_args ["name"] true args = Some [("name", a); (VA_ARGS, v)]
              /\ ordinary E (map fst a) = true
              /\ ordinary E (map fst v) = true
              \/ bind_args ["name"] true args = None).
    { destruct args as [|a [|v [|w l]]]; simpl.
      - exists [], []. now right.
      - exists a, []. left. inversion Hargs; subst. auto.
      - exists a, v. left. inversion Hargs as [|? ? Ha Hl]; subst.
        inversion Hl; subst. auto.
      - exists [], []. now right. }
    destruct Hargs' as (a & v & [(Hb & Ha & Hv) | Hb]); rewrite Hb in He;
      [|discriminate].
    destruct (expand zmk_defines n a) as [a'|ea] eqn:Ea.
    + destruct (expand zmk_defines n v) as [v'|ev] eqn:Ev.
      * rewrite (subst_template _ a v a' v' compat cells Ea Ev) in He.
        simpl bind in He. eapply IH; [|exact He].
        rewrite map_app, map_fst_hsadd, ordinary_app.
        pose proof (ordinary_filled E a' compat cells v' (IH _ _ Ha Ea)
                      (IH _ _ Hv Ev)) as Hf.
        unfold ptok in *. rewrite Hf, Hrest'. reflexivity.
      * rewrite (subst_template_err_va _ a v a' ev compat cells Ea Ev) in He.
        discriminate.
    + rewrite (subst_template_err_name _ a v ea compat cells Ea) in He.
      discriminate.
Qed.

Lemma expands_to_ordinary E ts out :
  ordinary E ts = true -> expands_to ts out -> ordinary E out = true.
Proof.
  intros Ho H. apply expands_to_inv in H as (n & o & He & ->).
  apply (expand_ordinary E n (map fresh ts)); [|assumption].
  now rewrite map_fst_fresh.
Qed.

(** * The claims

    In every statement the name is one macro argument ([is_argument]: its
    parentheses pair up and no comma stands outside them) and the variadic
    arguments are balanced ([balanced]); that is what the tokens between the
    parentheses of an invocation are (6.10.3p11).  Where a statement says
    what arbitrary arguments expand to, the arguments are [ordinary] in the
    environment [E] of the preprocessor: they use none of its predefined
    names, whose replacement the header does not determine. *)

(** ** C1 *)

(** C1, as amended.  For every name and every variadic argument list that
    contain no invocation of [ZMK_MACRO], [ZMK_MACRO1] or [ZMK_MACRO2] and no
    name predefined by the preprocessor, the expansion of
    [ZMK_MACRO(name, ...)] is the node whose label and node name are both
    [name], with [compatible = "zmk,behavior-macro"], [#binding-cells = <0>]
    and then the variadic arguments in its body, where every
    [MACRO_PLACEHOLDER] of the name and of the arguments has become [0];
    when [MACRO_PLACEHOLDER] occurs in neither, they are inserted as they
    were written. *)
Theorem ZMK_MACRO_node (E : environment) name va :
  is_argument name = true -> balanced va = true ->
  call_free name = true -> call_free va = true ->
  ordinary E name = true -> ordinary E va = true ->
  expands_to (call "ZMK_MACRO" name va)
    (node (placeholders_replaced name) "zmk,behavior-macro" "0"
          (placeholders_replaced va)) /\
  (~ In (TId "MACRO_PLACEHOLDER") name ->
   ~ In (TId "MACRO_PLACEHOLDER") va ->
   expands_to (call "ZMK_MACRO" name va)
     (node name "zmk,behavior-macro" "0" va)).
Proof.
  intros Hn Hv Hcn Hcv _ _.
  destruct (node_macro_plain ZMK_MACRO _ _ name va ZMK_MACRO_is_node_macro
              Hn Hv Hcn Hcv) as [H _].
  split; [exact H|]. intros Hpn Hpv.
  now rewrite (placeholders_replaced_id _ Hpn),
              (placeholders_replaced_id _ Hpv) in H.
Qed.

Lemma ZMK_MACRO_node_witness :
  is_argument my_macro = true /\ balanced key_bindings = true /\
  call_free my_macro = true /\ call_free key_bindings = true /\
  ordinary reserved_names my_macro = true /\
  ordinary reserved_names key_bindings = true /\
  expands_to (call "ZMK_MACRO" my_macro key_bindings)
    (node my_macro "zmk,behavior-macro" "0" key_bindings).
Proof.
  repeat split.
  exact (proj1 (ZMK_MACRO_node reserved_names my_macro key_bindings
                  eq_refl eq_refl eq_refl eq_refl eq_refl eq_refl)).
Defined.

(** C1 as stated fails when the name is [MACRO_PLACEHOLDER]: line 1 of the
    header turns it into [0] before it is put into the node.  It also fails
    when the arguments contain an invocation, which arrives expanded. *)
Lemma ZMK_MACRO_placeholder_name :
  is_argument [TId "MACRO_PLACEHOLDER"] = true /\
  balanced key_bindings = true /\
  expands_to (call "ZMK_MACRO" [TId "MACRO_PLACEHOLDER"] key_bindings)
    (node [TNum "0"] "zmk,behavior-macro" "0" key_bindings) /\
  ~ expands_to (call "ZMK_MACRO" [TId "MACRO_PLACEHOLDER"] key_bindings)
      (node [TId "MACRO_PLACEHOLDER"] "zmk,behavior-macro" "0" key_bindings) /\
  balanced nested_call = true /\
  expands_to (call "ZMK_MACRO" my_macro nested_call)
    (node my_macro "zmk,behavior-macro" "0"
       (node [TId "inner"] "zmk,behavior-macro" "0" [])) /\
  ~ expands_to (call "ZMK_MACRO" my_macro nested_call)
      (node my_macro "zmk,behavior-macro" "0" nested_call).
Proof.
  match goal with |- _ /\ _ /\ ?P /\ _ /\ _ /\ ?Q /\ _ =>
    assert (H : P) by (apply (expands_to_intro 64); vm_compute; reflexivity);
    assert (G : Q) by (apply (expands_to_intro 64); vm_compute; reflexivity)
  end.
  repeat split; try assumption.
  - intros H'. pose proof (expands_to_unique _ _ _ H H') as E.
    apply (f_equal (@hd_error token)) in E. discriminate E.
  - intros G'. pose proof (expands_to_unique _ _ _ G G') as E.
    apply (f_equal (fun l => nth_error l 17)) in E. discriminate E.
Qed.

(** ** C2 *)

(** C2, as amended.  For every name and every variadic argument list that
    contain no invocation of [ZMK_MACRO], [ZMK_MACRO1] or [ZMK_MACRO2] and no
    name predefined by the preprocessor, the expansion of
    [ZMK_MACRO1(name, ...)] is the node whose label and node name are both
    [name], with [compatible = "zmk,behavior-macro-one-param"],
    [#binding-cells = <1>] and then the variadic arguments in its body,
    where every [MACRO_PLACEHOLDER] of the name and of the arguments has
    become [0]; when [MACRO_PLACEHOLDER] occurs in neither, they are
    inserted as they were written. *)
Theorem ZMK_MACRO1_node (E : environment) name va :
  is_argument name = true -> balanced va = true ->
  call_free name = true -> call_free va = true ->
  ordinary E name = true -> ordinary E va = true ->
  expands_to (call "ZMK_MACRO1" name va)
    (node (placeholders_replaced name) "zmk,behavior-macro-one-param" "1"
          (placeholders_replaced va)) /\
  (~ In (TId "MACRO_PLACEHOLDER") name ->
   ~ In (TId "MACRO_PLACEHOLDER") va ->
   expands_to (call "ZMK_MACRO1" name va)
     (node name "zmk,behavior-macro-one-param" "1" va)).
Proof.
  intros Hn Hv Hcn Hcv _ _.
  destruct (node_macro_plain ZMK_MACRO1 _ _ name va ZMK_MACRO1_is_node_macro
              Hn Hv Hcn Hcv) as [H _].
  split; [exact H|]. intros Hpn Hpv.
  now rewrite (placeholders_replaced_id _ Hpn),
              (placeholders_replaced_id _ Hpv) in H.
Qed.

Lemma ZMK_MACRO1_node_witness :
  is_argument my_macro = true /\ balanced param_bindings = true /\
  call_free my_macro = true /\ call_free param_bindings = true /\
  ordinary reserved_names my_macro = true /\
  ordinary reserved_names param_bindings = true /\
  expands_to (call "ZMK_MACRO1" my_macro param_bindings)
    (node my_macro "zmk,behavior-macro-one-param" "1"
          param_bindings_expanded).
Proof.
  repeat split.
  exact (proj1 (ZMK_MACRO1_node reserved_names my_macro param_bindings
                  eq_refl eq_refl eq_refl eq_refl eq_refl eq_refl)).
Defined.

(** C2 as stated fails on the arguments the one-parameter macro is made
    for: the [MACRO_PLACEHOLDER] in the bindings arrives as [0].  It also
    fails when the arguments contain an invocation, which arrives
    expanded. *)
Lemma ZMK_MACRO1_placeholder_binding :
  is_argument my_macro = true /\ balanced param_bindings = true /\
  expands_to (call "ZMK_MACRO1" my_macro param_bindings)
    (node my_macro "zmk,behavior-macro-one-param" "1"
          param_bindings_expanded) /\
  ~ expands_to (call "ZMK_MACRO1" my_macro param_bindings)
      (node my_macro "zmk,behavior-macro-one-param" "1" param_bindings) /\
  balanced nested_call = true /\
  expands_to (call "ZMK_MACRO1" my_macro nested_call)
    (node my_macro "zmk,behavior-macro-one-param" "1"
       (node [TId "inner"] "zmk,behavior-macro" "0" [])) /\
  ~ expands_to (call "ZMK_MACRO1" my_macro nested_call)
      (node my_macro "zmk,behavior-macro-one-param" "1" nested_call).
Proof.
  match goal with |- _ /\ _ /\ ?P /\ _ /\ _ /\ ?Q /\ _ =>
    assert (H : P) by (apply (expands_to_intro 64); vm_compute; reflexivity);
    assert (G : Q) by (apply (expands_to_intro 64); vm_compute; reflexivity)
  end.
  repeat split; try assumption.
  - intros H'. pose proof (expands_to_unique _ _ _ H H') as E.
    apply (f_equal (fun l => nth_error l 27)) in E. discriminate E.
  - intros G'. pose proof (expands_to_unique _ _ _ G G') as E.
    apply (f_equal (fun l => nth_error l 17)) in E. discriminate E.
Qed.

(** ** C3 *)

(** C3, as amended.  For every name and every variadic argument list that
    contain no invocation of [ZMK_MACRO], [ZMK_MACRO1] or [ZMK_MACRO2] and no
    name predefined by the preprocessor, the expansion of
    [ZMK_MACRO2(name, ...)] is the node whose label and node name are both
    [name], with [compatible = "zmk,behavior-macro-two-param"],
    [#binding-cells = <2>] and then the variadic arguments in its body,
    where every [MACRO_PLACEHOLDER] of the name and of the arguments has
    become [0]; when [MACRO_PLACEHOLDER] occurs in neither, they are
    inserted as they were written. *)
Theorem ZMK_MACRO2_node (E : environment) name va :
  is_argument name = true -> balanced va = true ->
  call_free name = true -> call_free va = true ->
  ordinary E name = true -> ordinary E va = true ->
  expands_to (call "ZMK_MACRO2" name va)
    (node (placeholders_replaced name) "zmk,behavior-macro-two-param" "2"
          (placeholders_replaced va)) /\
  (~ In (TId "MACRO_PLACEHOLDER") name ->
   ~ In (TId "MACRO_PLACEHOLDER") va ->
   expands_to (call "ZMK_MACRO2" name va)
     (node name "zmk,behavior-macro-two-param" "2" va)).
Proof.
  intros Hn Hv Hcn Hcv _ _.
  destruct (node_macro_plain ZMK_MACRO2 _ _ name va ZMK_MACRO2_is_node_macro
              Hn Hv Hcn Hcv) as [H _].
  split; [exact H|]. intros Hpn Hpv.
  now rewrite (placeholders_replaced_id _ Hpn),
              (placeholders_replaced_id _ Hpv) in H.
Qed.

Lemma ZMK_MACRO2_node_witness :
  is_argument my_macro = true /\ balanced key_bindings = true /\
  call_free my_macro = true /\ call_free key_bindings = true /\
  ordinary reserved_names my_macro = true /\
  ordinary reserved_names key_bindings = true /\
  expands_to (call "ZMK_MACRO2" my_macro key_bindings)
    (node my_macro "zmk,behavior-macro-two-param" "2" key_bindings).
Proof.
  repeat split.
  exact (proj1 (ZMK_MACRO2_node reserved_names my_macro key_bindings
                  eq_refl eq_refl eq_refl eq_refl eq_refl eq_refl)).
Defined.

(** C3 as stated fails when the arguments contain an invocation: it is
    replaced by its own expansion before it reaches the body.  It also fails
    when they contain [MACRO_PLACEHOLDER], which arrives as [0]. *)
Lemma ZMK_MACRO2_nested_invocation :
  is_argument my_macro = true /\ balanced nested_call = true /\
  expands_to (call "ZMK_MACRO2" my_macro nested_call)
    (node my_macro "zmk,behavior-macro-two-param" "2"
       (node [TId "inner"] "zmk,behavior-macro" "0" [])) /\
  ~ expands_to (call "ZMK_MACRO2" my_macro nested_call)
      (node my_macro "zmk,behavior-macro-two-param" "2" nested_call) /\
  balanced param_bindings = true /\
  expands_to (call "ZMK_MACRO2" my_macro param_bindings)
    (node my_macro "zmk,behavior-macro-two-param" "2"
          param_bindings_expanded) /\
  ~ expands_to (call "ZMK_MACRO2" my_macro param_bindings)
      (node my_macro "zmk,behavior-macro-two-param" "2" param_bindings).
Proof.
  match goal with |- _ /\ _ /\ ?P /\ _ /\ _ /\ ?Q /\ _ =>
    assert (H : P) by (apply (expands_to_intro 64); vm_compute; reflexivity);
    assert (G : Q) by (apply (expands_to_intro 64); vm_compute; reflexivity)
  end.
  repeat split; try assumption.
  - intros H'. pose proof (expands_to_unique _ _ _ H H') as E.
    apply (f_equal (fun l => nth_error l 17)) in E. discriminate E.
  - intros G'. pose proof (expands_to_unique _ _ _ G G') as E.
    apply (f_equal (fun l => nth_error l 27)) in E. discriminate E.
Qed.

(** ** C4 *)

(** C4, as amended.  For each of the three macros, every name and every
    variadic argument list that use no name predefined by the preprocessor,
    the variadic arguments containing no invocation of [ZMK_MACRO],
    [ZMK_MACRO1] or [ZMK_MACRO2], the node body consists of the two
    properties followed by the variadic arguments, complete and in order,
    in which every [MACRO_PLACEHOLDER] has become [0]; arguments without
    [MACRO_PLACEHOLDER] arrive unmodified. *)
Theorem variadic_arguments_pass_through (E : environment)
    x compat cells name va :
  In (x, (compat, cells)) node_macros ->
  is_argument name = true -> balanced va = true -> call_free va = true ->
  ordinary E name = true -> ordinary E va = true ->
  exists header,
    expands_to (call x name va)
      (header ++ properties compat cells
              ++ placeholders_replaced va ++ closing) /\
    (~ In (TId "MACRO_PLACEHOLDER") va ->
     expands_to (call x name va)
       (header ++ properties compat cells ++ va ++ closing)).
Proof.
  intros Hx Hn Hv Hcv _ _.
  destruct (node_macros_spec _ _ _ Hx) as (m & <- & Hm).
  destruct (node_call_general m compat cells name va Hm Hn Hv)
    as (front & H1 & _ & _ & H5).
  destruct (H5 Hcv) as (header & -> & _).
  pose proof (H1 [] [] expands_to_nil) as H.
  rewrite !app_nil_r, <- !app_assoc in H.
  exists header. split; [exact H|]. intros Hp.
  now rewrite (placeholders_replaced_id _ Hp) in H.
Qed.

Lemma variadic_arguments_pass_through_witness :
  In ("ZMK_MACRO2", ("zmk,behavior-macro-two-param", "2")) node_macros /\
  is_argument my_macro = true /\ balanced key_bindings = true /\
  call_free key_bindings = true /\
  ordinary reserved_names my_macro = true /\
  ordinary reserved_names key_bindings = true /\
  exists header,
    expands_to (call "ZMK_MACRO2" my_macro key_bindings)
      (header ++ properties "zmk,behavior-macro-two-param" "2"
              ++ placeholders_replaced key_bindings ++ closing) /\
    (~ In (TId "MACRO_PLACEHOLDER") key_bindings ->
     expands_to (call "ZMK_MACRO2" my_macro key_bindings)
       (header ++ properties "zmk,behavior-macro-two-param" "2"
               ++ key_bindings ++ closing)).
Proof.
  assert (Hin : In ("ZMK_MACRO2", ("zmk,behavior-macro-two-param", "2"))
                  node_macros)
    by (right; right; left; reflexivity).
  split; [exact Hin|]. repeat split.
  exact (variadic_arguments_pass_through reserved_names _ _ _
           my_macro key_bindings
           Hin eq_refl eq_refl eq_refl eq_refl eq_refl).
Defined.

(** C4 as stated fails on [ZMK_MACRO1(my_macro, bindings =
    <&macro_param_1to1>, <&kp MACRO_PLACEHOLDER>;)]: the body ends with
    [<&kp 0>;], not with the text that was supplied.  It also fails when the
    supplied text contains an invocation, which arrives expanded. *)
Lemma placeholder_binding_is_modified :
  is_argument my_macro = true /\ balanced param_bindings = true /\
  expands_to (call "ZMK_MACRO1" my_macro param_bindings)
    (node my_macro "zmk,behavior-macro-one-param" "1"
          param_bindings_expanded) /\
  ~ (exists pre,
       expands_to (call "ZMK_MACRO1" my_macro param_bindings)
         (pre ++ param_bindings ++ closing)) /\
  balanced nested_call = true /\
  expands_to (call "ZMK_MACRO1" my_macro nested_call)
    (node my_macro "zmk,behavior-macro-one-param" "1"
       (node [TId "inner"] "zmk,behavior-macro" "0" [])) /\
  ~ (exists pre,
       expands_to (call "ZMK_MACRO1" my_macro nested_call)
         (pre ++ nested_call ++ closing)).
Proof.
  match goal with |- _ /\ _ /\ ?P /\ _ /\ _ /\ ?Q /\ _ =>
    assert (H : P) by (apply (expands_to_intro 64); vm_compute; reflexivity);
    assert (G : Q) by (apply (expands_to_intro 64); vm_compute; reflexivity)
  end.
  repeat split; try assumption.
  - intros (pre & H'). pose proof (expands_to_unique _ _ _ H H') as E.
    apply (f_equal (@rev token)) in E. rewrite !rev_app_distr in E.
    apply (f_equal (fun l => nth_error l 4)) in E. discriminate E.
  - intros (pre & G'). pose proof (expands_to_unique _ _ _ G G') as E.
    apply (f_equal (@rev token)) in E. rewrite !rev_app_distr in E.
    apply (f_equal (fun l => nth_error l 2)) in E. discriminate E.
Qed.

(** ** C5 *)

Lemma node_split name compat cells va :
  node name compat cells va
  = (name ++ TPunct ":" :: name
          ++ [TPunct "{"; TId "compatible"; TPunct "="])
    ++ TStr compat
    :: [ TPunct ";"; TPunct "#"; TId "binding"; TPunct "-"; TId "cells";
         TPunct "="; TPunct "<" ]
    ++ TNum cells :: [TPunct ">"; TPunct ";"] ++ va ++ closing.
Proof.
  unfold node. rewrite <- app_assoc. simpl. rewrite <- app_assoc.
  reflexivity.
Qed.

(** C5, as amended.  For every name and every variadic argument list that
    contain no invocation of [ZMK_MACRO], [ZMK_MACRO1] or [ZMK_MACRO2], the
    three expansions are the same token for token except for the compatible
    string and the number of binding cells. *)
Theorem node_macros_differ_in_two_constants name va :
  is_argument name = true -> balanced va = true ->
  call_free name = true -> call_free va = true ->
  exists A B C,
    expands_to (call "ZMK_MACRO" name va)
      (A ++ TStr "zmk,behavior-macro" :: B ++ TNum "0" :: C) /\
    expands_to (call "ZMK_MACRO1" name va)
      (A ++ TStr "zmk,behavior-macro-one-param" :: B ++ TNum "1" :: C) /\
    expands_to (call "ZMK_MACRO2" name va)
      (A ++ TStr "zmk,behavior-macro-two-param" :: B ++ TNum "2" :: C).
Proof.
  intros Hn Hv Hcn Hcv.
  destruct (node_macro_plain ZMK_MACRO _ _ name va ZMK_MACRO_is_node_macro
              Hn Hv Hcn Hcv) as [H0 _].
  destruct (node_macro_plain ZMK_MACRO1 _ _ name va ZMK_MACRO1_is_node_macro
              Hn Hv Hcn Hcv) as [H1 _].
  destruct (node_macro_plain ZMK_MACRO2 _ _ name va ZMK_MACRO2_is_node_macro
              Hn Hv Hcn Hcv) as [H2 _].
  rewrite node_split in H0, H1, H2.
  do 3 eexists. split; [exact H0|]. split; [exact H1 | exact H2].
Qed.

Lemma node_macros_differ_in_two_constants_witness :
  is_argument my_macro = true /\ balanced param_bindings = true /\
  call_free my_macro = true /\ call_free param_bindings = true /\
  exists A B C,
    expands_to (call "ZMK_MACRO" my_macro param_bindings)
      (A ++ TStr "zmk,behavior-macro" :: B ++ TNum "0" :: C) /\
    expands_to (call "ZMK_MACRO1" my_macro param_bindings)
      (A ++ TStr "zmk,behavior-macro-one-param" :: B ++ TNum "1" :: C) /\
    expands_to (call "ZMK_MACRO2" my_macro param_bindings)
      (A ++ TStr "zmk,behavior-macro-two-param" :: B ++ TNum "2" :: C).
Proof.
  repeat split.
  exact (node_macros_differ_in_two_constants my_macro param_bindings
           eq_refl eq_refl eq_refl eq_refl).
Defined.

(** C5 as stated fails on the arguments [a, ZMK_MACRO ZMK_MACRO1((b))].
    After the inner invocation has been replaced, [ZMK_MACRO] stands before
    [(b)].  Inside the replacement of [ZMK_MACRO] that name is not replaced
    again; inside the replacement of [ZMK_MACRO1] it is an invocation.  The
    two expansions have 43 and 58 tokens. *)
Lemma deferred_call_differs :
  is_argument [TId "a"] = true /\ balanced deferred_call = true /\
  expands_to (call "ZMK_MACRO" [TId "a"] deferred_call)
    (node [TId "a"] "zmk,behavior-macro" "0"
       (TId "ZMK_MACRO"
        :: node [LP; TId "b"; RP] "zmk,behavior-macro-one-param" "1" [])) /\
  expands_to (call "ZMK_MACRO1" [TId "a"] deferred_call)
    (node [TId "a"] "zmk,behavior-macro-one-param" "1"
       (node [TId "b"] "zmk,behavior-macro" "0" []
        ++ TPunct ":" :: [LP; TId "b"; RP]
        ++ properties "zmk,behavior-macro-one-param" "1" ++ closing)) /\
  ~ exists A B C s0 k0 s1 k1,
      expands_to (call "ZMK_MACRO" [TId "a"] deferred_call)
        (A ++ s0 :: B ++ k0 :: C) /\
      expands_to (call "ZMK_MACRO1" [TId "a"] deferred_call)
        (A ++ s1 :: B ++ k1 :: C).
Proof.
  match goal with |- _ /\ _ /\ ?P /\ ?Q /\ _ =>
    assert (H0 : P) by (apply (expands_to_intro 200); vm_compute; reflexivity);
    assert (H1 : Q) by (apply (expands_to_intro 200); vm_compute; reflexivity)
  end.
  repeat split; try assumption.
  intros (A & B & C & s0 & k0 & s1 & k1 & H0' & H1').
  pose proof (expands_to_unique _ _ _ H0 H0') as E0.
  pose proof (expands_to_unique _ _ _ H1 H1') as E1.
  apply (f_equal (@length token)) in E0, E1.
  rewrite length_app in E0, E1. simpl in E0, E1.
  rewrite length_app in E0, E1. simpl in E0, E1. lia.
Qed.

(** ** C6 *)

(** C6, as amended.  Expansion of each of the three macros never fails on
    arguments whose parentheses pair up and that use no name predefined by
    the preprocessor: for every such name and variadic argument list,
    whatever tokens they consist of otherwise, the expansion is a token
    sequence as soon as the fuel suffices, and no amount of fuel yields an
    error other than the lack of fuel.  The same holds when the variadic
    arguments are left out. *)
Theorem expansion_never_fails (E : environment) x compat cells name va :
  In (x, (compat, cells)) node_macros ->
  balanced name = true -> balanced va = true ->
  ordinary E name = true -> ordinary E va = true ->
  (exists out,
     expands_to (call x name va) out /\
     forall n, cpp n (call x name va) = Ok out
               \/ cpp n (call x name va) = Err OutOfFuel) /\
  (exists out,
     expands_to (call0 x name) out /\
     forall n, cpp n (call0 x name) = Ok out
               \/ cpp n (call0 x name) = Err OutOfFuel).
Proof.
  intros _ Hn Hv _ _. split.
  - pose proof (balanced_call x name va Hn Hv) as Hb.
    destruct (expands_to_total _ Hb) as (out & Ho).
    exists out. split; [assumption|]. intros n. now apply cpp_no_error.
  - pose proof (balanced_call0 x name Hn) as Hb.
    destruct (expands_to_total _ Hb) as (out & Ho).
    exists out. split; [assumption|]. intros n. now apply cpp_no_error.
Qed.

Lemma expansion_never_fails_witness :
  In ("ZMK_MACRO", ("zmk,behavior-macro", "0")) node_macros /\
  balanced odd_name = true /\ balanced deferred_call = true /\
  ordinary reserved_names odd_name = true /\
  ordinary reserved_names deferred_call = true /\
  (exists out,
     expands_to (call "ZMK_MACRO" odd_name deferred_call) out /\
     forall n,
       cpp n (call "ZMK_MACRO" odd_name deferred_call) = Ok out
       \/ cpp n (call "ZMK_MACRO" odd_name deferred_call) = Err OutOfFuel) /\
  (exists out,
     expands_to (call0 "ZMK_MACRO" odd_name) out /\
     forall n,
       cpp n (call0 "ZMK_MACRO" odd_name) = Ok out
       \/ cpp n (call0 "ZMK_MACRO" odd_name) = Err OutOfFuel).
Proof.
  assert (Hin : In ("ZMK_MACRO", ("zmk,behavior-macro", "0")) node_macros)
    by (left; reflexivity).
  split; [exact Hin|]. do 4 (split; [reflexivity|]).
  exact (expansion_never_fails reserved_names _ _ _ odd_name deferred_call
           Hin eq_refl eq_refl eq_refl eq_refl).
Defined.

(** C6 as stated fails for a malformed name: with the name [(] the
    invocation [ZMK_MACRO((,)] has no closing parenthesis of its own, and
    the preprocessor rejects it whatever the fuel. *)
Lemma unpaired_parenthesis_fails :
  balanced [LP] = false /\
  (forall n,
     cpp (S n) (call "ZMK_MACRO" [LP] [])
     = Err (Unterminated "ZMK_MACRO")) /\
  ~ (exists out, expands_to (call "ZMK_MACRO" [LP] []) out).
Proof.
  assert (H : forall n,
            cpp (S n) (call "ZMK_MACRO" [LP] [])
            = Err (Unterminated "ZMK_MACRO"))
    by (intros n; reflexivity).
  split; [reflexivity|]. split; [exact H|].
  intros (out & N & HN). specialize (HN (S N) (Nat.le_succ_diag_r N)).
  rewrite H in HN. discriminate HN.
Qed.

(** ** C7 *)

(** C7, as amended.  For every name and variadic argument list that use no
    name predefined by the preprocessor, the expansion of an invocation is
    one text, and the invocation contributes that same text wherever it
    stands in a sequence of input: whatever is expanded before and after
    it, invocations of the other macros included. *)
Theorem expansion_independent_of_context (E : environment)
    x compat cells name va :
  In (x, (compat, cells)) node_macros ->
  is_argument name = true -> balanced va = true ->
  ordinary E name = true -> ordinary E va = true ->
  exists out,
    expands_to (call x name va) out /\
    (forall pre opre post opost,
       ordinary E pre = true -> ordinary E post = true ->
       expands_to pre opre -> expands_to post opost ->
       expands_to (pre ++ call x name va ++ post) (opre ++ out ++ opost)).
Proof.
  intros Hx Hn Hv _ _.
  destruct (node_macros_spec _ _ _ Hx) as (m & <- & Hm).
  destruct (node_call_general m compat cells name va Hm Hn Hv)
    as (front & H1 & _).
  assert (H : expands_to (call (m_name m) name va) (front ++ closing)).
  { pose proof (H1 [] [] expands_to_nil) as H.
    now rewrite !app_nil_r in H. }
  exists (front ++ closing). split; [exact H|].
  intros pre opre post opost _ _ Hpre Hpost.
  rewrite <- (app_assoc front).
  apply expands_to_app; [assumption | now apply H1 | reflexivity].
Qed.

Lemma expansion_independent_of_context_witness :
  In ("ZMK_MACRO1", ("zmk,behavior-macro-one-param", "1")) node_macros /\
  is_argument my_macro = true /\ balanced param_bindings = true /\
  ordinary reserved_names my_macro = true /\
  ordinary reserved_names param_bindings = true /\
  exists out,
    expands_to (call "ZMK_MACRO1" my_macro param_bindings) out /\
    (forall pre opre post opost,
       ordinary reserved_names pre = true ->
       ordinary reserved_names post = true ->
       expands_to pre opre -> expands_to post opost ->
       expands_to (pre ++ call "ZMK_MACRO1" my_macro param_bindings ++ post)
                  (opre ++ out ++ opost)).
Proof.
  assert (Hin : In ("ZMK_MACRO1", ("zmk,behavior-macro-one-param", "1"))
                  node_macros)
    by (right; left; reflexivity).
  split; [exact Hin|]. do 4 (split; [reflexivity|]).
  exact (expansion_independent_of_context reserved_names _ _ _
           my_macro param_bindings Hin eq_refl eq_refl eq_refl eq_refl).
Defined.

(** C7 as stated fails inside the arguments of another invocation.  The
    complete invocation [ZMK_MACRO1(a, ZMK_MACRO2 ZMK_MACRO ZMK_MACRO1(((c))))]
    expands to a text that contains [ZMK_MACRO2 (c)].  As an argument of
    [ZMK_MACRO2] it contributes exactly that text, since the name
    [ZMK_MACRO2] is not replaced again there; as an argument of [ZMK_MACRO]
    the same invocation contributes another text, in which [ZMK_MACRO2 (c)]
    has been replaced by a node.  The two bodies have 65 and 80 tokens. *)
Lemma surrounding_macro_matters :
  is_argument [TId "z"] = true /\ balanced inner_call = true /\
  ordinary reserved_names inner_call = true /\
  expands_to inner_call inner_call_expanded /\
  expands_to (call "ZMK_MACRO2" [TId "z"] inner_call)
    (node [TId "z"] "zmk,behavior-macro-two-param" "2" inner_call_expanded) /\
  ~ expands_to (call "ZMK_MACRO" [TId "z"] inner_call)
      (node [TId "z"] "zmk,behavior-macro" "0" inner_call_expanded) /\
  ~ (exists body,
       expands_to (call "ZMK_MACRO" [TId "z"] inner_call)
         (node [TId "z"] "zmk,behavior-macro" "0" body) /\
       expands_to (call "ZMK_MACRO2" [TId "z"] inner_call)
         (node [TId "z"] "zmk,behavior-macro-two-param" "2" body)).
Proof.
  assert (H2 : expands_to (call "ZMK_MACRO2" [TId "z"] inner_call)
                 (node [TId "z"] "zmk,behavior-macro-two-param" "2"
                       inner_call_expanded))
    by (apply (expands_to_intro 300); vm_compute; reflexivity).
  assert (H0 : exists o,
            expands_to (call "ZMK_MACRO" [TId "z"] inner_call) o /\
            length o = 99).
  { eexists. split.
    - apply (expands_to_intro 300). vm_compute. reflexivity.
    - reflexivity. }
  destruct H0 as (o & H0 & Hlen).
  do 3 (split; [reflexivity|]).
  split; [apply (expands_to_intro 300); vm_compute; reflexivity|].
  split; [exact H2|]. split.
  - intros H. pose proof (expands_to_unique _ _ _ H H0) as E.
    apply (f_equal (@length token)) in E. rewrite Hlen in E.
    vm_compute in E. discriminate E.
  - intros (body & Hb0 & Hb2).
    pose proof (expands_to_unique _ _ _ Hb0 H0) as E0.
    pose proof (expands_to_unique _ _ _ Hb2 H2) as E2.
    apply (f_equal (@length token)) in E0, E2. rewrite Hlen in E0.
    unfold node in E0, E2. rewrite !length_app in E0, E2.
    simpl in E0, E2. rewrite !length_app in E0, E2. simpl in E0, E2. lia.
Qed.

(** ** C8 *)

(** C8, as amended.  The header consists of exactly four macro definitions:
    the object-like [MACRO_PLACEHOLDER], whose replacement is [0], and the
    three function-like macros [ZMK_MACRO], [ZMK_MACRO1] and [ZMK_MACRO2],
    each with the one named parameter [name] and variable arguments; no
    other name is defined. *)
Theorem header_defines_four_macros :
  defined_names zmk_defines
  = ["MACRO_PLACEHOLDER"; "ZMK_MACRO"; "ZMK_MACRO1"; "ZMK_MACRO2"] /\
  (forall x,
     (exists m, lookup zmk_defines x = Some m) <->
     In x ["MACRO_PLACEHOLDER"; "ZMK_MACRO"; "ZMK_MACRO1"; "ZMK_MACRO2"]) /\
  lookup zmk_defines "MACRO_PLACEHOLDER"
  = Some (Macro "MACRO_PLACEHOLDER" ObjectLike [TNum "0"]) /\
  expands_to [TId "MACRO_PLACEHOLDER"] [TNum "0"] /\
  (forall x compat cells,
     In (x, (compat, cells)) node_macros ->
     lookup zmk_defines x
     = Some (Macro x (FunctionLike ["name"] true) (template compat cells))) /\
  substitution_only zmk_defines = true.
Proof.
  split; [reflexivity|]. split; [|split; [reflexivity|split; [|split]]].
  - intros x. split.
    + intros (m & Hm). unfold lookup in Hm. simpl in Hm. simpl.
      destruct (String.eqb x "MACRO_PLACEHOLDER") eqn:E0;
        [apply String.eqb_eq in E0; auto|].
      destruct (String.eqb x "ZMK_MACRO") eqn:E1;
        [apply String.eqb_eq in E1; auto|].
      destruct (String.eqb x "ZMK_MACRO1") eqn:E2;
        [apply String.eqb_eq in E2; auto|].
      destruct (String.eqb x "ZMK_MACRO2") eqn:E3;
        [apply String.eqb_eq in E3; auto 6|].
      discriminate.
    + intros [<-|[<-|[<-|[<-|[]]]]]; eexists; reflexivity.
  - apply (expands_to_intro 3). reflexivity.
  - intros x compat cells [H|[H|[H|[]]]]; inversion H; reflexivity.
  - reflexivity.
Qed.

(** C8 as stated fails: line 1 of the header defines a fourth macro. *)
Lemma MACRO_PLACEHOLDER_is_defined :
  (exists m, lookup zmk_defines "MACRO_PLACEHOLDER" = Some m) /\
  ~ In "MACRO_PLACEHOLDER" ["ZMK_MACRO"; "ZMK_MACRO1"; "ZMK_MACRO2"] /\
  length zmk_defines <> 3.
Proof.
  split; [eexists; reflexivity|]. split.
  - intros [H|[H|[H|[]]]]; discriminate H.
  - discriminate.
Qed.

(** ** C9 *)

(** C9, as amended.  For each of the three macros and every name and
    variadic argument list that use no name predefined by the preprocessor,
    the expansion ends with the closing [};], and an invocation followed by
    further such input expands to its own expansion followed by the
    expansion of that input.  When the name contains no invocation of the
    three macros, the expansion begins with the header [name: name {], in
    which every [MACRO_PLACEHOLDER] has become [0].  When moreover the
    variadic arguments contain no such invocation, the name contains no
    brace and the braces of the variadic arguments pair up, the expansion
    is a single self-terminated node: the brace of the header is closed by
    the final [};] and by no brace before it. *)
Theorem expansion_is_one_closed_node (E : environment)
    x compat cells name va :
  In (x, (compat, cells)) node_macros ->
  is_argument name = true -> balanced va = true ->
  ordinary E name = true -> ordinary E va = true ->
  exists front,
    expands_to (call x name va) (front ++ closing) /\
    (forall next onext,
       ordinary E next = true -> expands_to next onext ->
       expands_to (call x name va ++ next) ((front ++ closing) ++ onext)) /\
    (call_free name = true ->
     exists body,
       front = placeholders_replaced name
               ++ TPunct ":" :: placeholders_replaced name
               ++ TPunct "{" :: body) /\
    (call_free name = true -> call_free va = true ->
     brace_free name = true -> braces_paired va = true ->
     single_node (front ++ closing) = true).
Proof.
  intros Hx Hn Hv _ _.
  destruct (node_macros_spec _ _ _ Hx) as (m & <- & Hm).
  destruct (node_call_general m compat cells name va Hm Hn Hv)
    as (front & H1 & _ & H3 & H5).
  exists front. split; [|split; [|split]].
  - pose proof (H1 [] [] expands_to_nil) as H.
    now rewrite !app_nil_r in H.
  - intros next onext _ Hnext. rewrite <- app_assoc. now apply H1.
  - exact H3.
  - intros Hcn Hcv Hbn Hbv. destruct (H5 Hcv) as (header & -> & Hh).
    rewrite (Hh Hcn), <- !app_assoc.
    change (single_node
              (node (placeholders_replaced name) compat cells
                    (placeholders_replaced va)) = true).
    apply single_node_node.
    + now rewrite brace_free_replaced.
    + unfold braces_paired in *. now rewrite brace_scan_replaced.
Qed.

Lemma expansion_is_one_closed_node_witness :
  In ("ZMK_MACRO", ("zmk,behavior-macro", "0")) node_macros /\
  is_argument my_macro = true /\ balanced param_bindings = true /\
  ordinary reserved_names my_macro = true /\
  ordinary reserved_names param_bindings = true /\
  exists front,
    expands_to (call "ZMK_MACRO" my_macro param_bindings)
               (front ++ closing) /\
    (forall next onext,
       ordinary reserved_names next = true -> expands_to next onext ->
       expands_to (call "ZMK_MACRO" my_macro param_bindings ++ next)
                  ((front ++ closing) ++ onext)) /\
    (call_free my_macro = true ->
     exists body,
       front = placeholders_replaced my_macro
               ++ TPunct ":" :: placeholders_replaced my_macro
               ++ TPunct "{" :: body) /\
    (call_free my_macro = true -> call_free param_bindings = true ->
     brace_free my_macro = true -> braces_paired param_bindings = true ->
     single_node (front ++ closing) = true).
Proof.
  assert (Hin : In ("ZMK_MACRO", ("zmk,behavior-macro", "0")) node_macros)
    by (left; reflexivity).
  split; [exact Hin|]. do 4 (split; [reflexivity|]).
  exact (expansion_is_one_closed_node reserved_names _ _ _
           my_macro param_bindings Hin eq_refl eq_refl eq_refl eq_refl).
Defined.

(** C9 as stated fails in both halves.  The header: for the name
    [MACRO_PLACEHOLDER] the expansion begins with [0: 0 {], and
    [ZMK_MACRO2(ZMK_MACRO(x))] begins with the expansion of the inner
    invocation.  The single node: with the arguments [b {] the final [};]
    closes the brace of [b] and the node [a] stays open; with [}; b: b {]
    the node [a] is closed early and the expansion is two nodes; and with
    [ZMK_MACRO({, })] in the arguments the braces pair up in the text that
    was written, but not in the node it expands to. *)
Lemma expansion_is_not_always_one_node :
  is_argument [TId "MACRO_PLACEHOLDER"] = true /\
  expands_to (call0 "ZMK_MACRO" [TId "MACRO_PLACEHOLDER"])
    (node [TNum "0"] "zmk,behavior-macro" "0" []) /\
  ~ (exists rest,
       expands_to (call0 "ZMK_MACRO" [TId "MACRO_PLACEHOLDER"])
         ([TId "MACRO_PLACEHOLDER"] ++ TPunct ":"
          :: [TId "MACRO_PLACEHOLDER"] ++ TPunct "{" :: rest)) /\
  is_argument (call0 "ZMK_MACRO" [TId "x"]) = true /\
  expands_to (call0 "ZMK_MACRO2" (call0 "ZMK_MACRO" [TId "x"]))
    (node (node [TId "x"] "zmk,behavior-macro" "0" [])
          "zmk,behavior-macro-two-param" "2" []) /\
  ~ (exists rest,
       expands_to (call0 "ZMK_MACRO2" (call0 "ZMK_MACRO" [TId "x"]))
         (call0 "ZMK_MACRO" [TId "x"] ++ TPunct ":"
          :: call0 "ZMK_MACRO" [TId "x"] ++ TPunct "{" :: rest)) /\
  balanced open_brace = true /\
  expands_to (call "ZMK_MACRO" [TId "a"] open_brace)
    (node [TId "a"] "zmk,behavior-macro" "0" open_brace) /\
  single_node (node [TId "a"] "zmk,behavior-macro" "0" open_brace) = false /\
  balanced second_node = true /\
  expands_to (call "ZMK_MACRO" [TId "a"] second_node)
    (node [TId "a"] "zmk,behavior-macro" "0" second_node) /\
  single_node (node [TId "a"] "zmk,behavior-macro" "0" second_node) = false /\
  balanced brace_call = true /\ braces_paired brace_call = true /\
  expands_to (call "ZMK_MACRO" [TId "a"] brace_call)
    (node [TId "a"] "zmk,behavior-macro" "0"
       (node [TPunct "{"] "zmk,behavior-macro" "0" [TPunct "}"])) /\
  single_node
    (node [TId "a"] "zmk,behavior-macro" "0"
       (node [TPunct "{"] "zmk,behavior-macro" "0" [TPunct "}"])) = false.
Proof.
  match goal with |- _ /\ ?P /\ _ /\ _ /\ ?Q /\ _ =>
    assert (H : P) by (apply (expands_to_intro 64); vm_compute; reflexivity);
    assert (G : Q) by (apply (expands_to_intro 64); vm_compute; reflexivity)
  end.
  split; [reflexivity|]. split; [exact H|]. split.
  { intros (rest & H'). pose proof (expands_to_unique _ _ _ H H') as E.
    apply (f_equal (@hd_error token)) in E. discriminate E. }
  split; [reflexivity|]. split; [exact G|]. split.
  { intros (rest & G'). pose proof (expands_to_unique _ _ _ G G') as E.
    apply (f_equal (@hd_error token)) in E. discriminate E. }
  repeat split; apply (expands_to_intro 64); vm_compute; reflexivity.
Qed.

(** ** C10 *)

(** C10, as amended.  For every name that contains no invocation of the
    three macros and no name predefined by the preprocessor, an invocation
    of any of the three macros with no variadic arguments, written
    [M(name)] or [M(name,)], expands to the node with the header
    [name: name], in which every [MACRO_PLACEHOLDER] has become [0], the
    [compatible] property and the [#binding-cells] property, and nothing
    else in its body; it is a single self-terminated node when the name
    contains no brace. *)
Theorem empty_variadic_arguments (E : environment) x compat cells name :
  In (x, (compat, cells)) node_macros ->
  is_argument name = true -> call_free name = true ->
  ordinary E name = true ->
  expands_to (call0 x name)
    (node (placeholders_replaced name) compat cells []) /\
  expands_to (call x name [])
    (node (placeholders_replaced name) compat cells []) /\
  (~ In (TId "MACRO_PLACEHOLDER") name ->
   expands_to (call0 x name) (node name compat cells []) /\
   expands_to (call x name []) (node name compat cells [])) /\
  (brace_free name = true ->
   single_node (node (placeholders_replaced name) compat cells []) = true).
Proof.
  intros Hx Hn Hcn _.
  destruct (node_macros_spec _ _ _ Hx) as (m & <- & Hm).
  destruct (node_macro_plain m compat cells name [] Hm Hn eq_refl Hcn eq_refl)
    as [H1 H0].
  specialize (H0 eq_refl). change (placeholders_replaced []) with (@nil token)
    in H1.
  split; [exact H0|]. split; [exact H1|]. split.
  - intros Hp. rewrite (placeholders_replaced_id _ Hp) in H0, H1. now split.
  - intros Hb. apply single_node_node; [|reflexivity].
    now rewrite brace_free_replaced.
Qed.

Lemma empty_variadic_arguments_witness :
  In ("ZMK_MACRO2", ("zmk,behavior-macro-two-param", "2")) node_macros /\
  is_argument my_macro = true /\ call_free my_macro = true /\
  ordinary reserved_names my_macro = true /\
  expands_to (call0 "ZMK_MACRO2" my_macro)
    (node my_macro "zmk,behavior-macro-two-param" "2" []) /\
  expands_to (call "ZMK_MACRO2" my_macro [])
    (node my_macro "zmk,behavior-macro-two-param" "2" []).
Proof.
  assert (Hin : In ("ZMK_MACRO2", ("zmk,behavior-macro-two-param", "2"))
                  node_macros)
    by (right; right; left; reflexivity).
  split; [exact Hin|]. do 3 (split; [reflexivity|]).
  pose proof (empty_variadic_arguments reserved_names _ _ _ my_macro
                Hin eq_refl eq_refl eq_refl) as (H0 & H1 & _).
  exact (conj H0 H1).
Defined.

(** C10 as stated fails for the name [MACRO_PLACEHOLDER]: the node is
    labelled and named [0].  It also fails when the name is an invocation:
    [ZMK_MACRO1(ZMK_MACRO(x))] has the whole inner node where the name is
    expected. *)
Lemma placeholder_name_without_arguments :
  is_argument [TId "MACRO_PLACEHOLDER"] = true /\
  expands_to (call0 "ZMK_MACRO1" [TId "MACRO_PLACEHOLDER"])
    (node [TNum "0"] "zmk,behavior-macro-one-param" "1" []) /\
  expands_to (call "ZMK_MACRO1" [TId "MACRO_PLACEHOLDER"] [])
    (node [TNum "0"] "zmk,behavior-macro-one-param" "1" []) /\
  ~ (exists body,
       expands_to (call0 "ZMK_MACRO1" [TId "MACRO_PLACEHOLDER"])
         ([TId "MACRO_PLACEHOLDER"] ++ TPunct ":"
          :: [TId "MACRO_PLACEHOLDER"] ++ body)) /\
  is_argument (call0 "ZMK_MACRO" [TId "x"]) = true /\
  expands_to (call0 "ZMK_MACRO1" (call0 "ZMK_MACRO" [TId "x"]))
    (node (node [TId "x"] "zmk,behavior-macro" "0" [])
          "zmk,behavior-macro-one-param" "1" []) /\
  ~ (exists body,
       expands_to (call0 "ZMK_MACRO1" (call0 "ZMK_MACRO" [TId "x"]))
         (call0 "ZMK_MACRO" [TId "x"] ++ TPunct ":"
          :: call0 "ZMK_MACRO" [TId "x"] ++ body)).
Proof.
  match goal with |- _ /\ ?P /\ ?P' /\ _ /\ _ /\ ?Q /\ _ =>
    assert (H : P) by (apply (expands_to_intro 64); vm_compute; reflexivity);
    assert (H' : P') by (apply (expands_to_intro 64); vm_compute; reflexivity);
    assert (G : Q) by (apply (expands_to_intro 64); vm_compute; reflexivity)
  end.
  repeat split; try assumption.
  - intros (body & B). pose proof (expands_to_unique _ _ _ H B) as E.
    apply (f_equal (@hd_error token)) in E. discriminate E.
  - intros (body & B). pose proof (expands_to_unique _ _ _ G B) as E.
    apply (f_equal (@hd_error token)) in E. discriminate E.
Qed.

(** * Further properties of the header *)

(** ** Line 1 outside invocations *)

(** X1.  In a token sequence that contains no invocation of a node macro
    and no name predefined by the preprocessor, the preprocessor replaces
    every [MACRO_PLACEHOLDER] by [0] and changes nothing else; a node
    macro's name that has no parenthesis after it is among the tokens that
    stay.  The result uses no predefined name either. *)
Theorem placeholder_replaced_outside_invocations (E : environment) ts :
  call_free ts = true -> ordinary E ts = true ->
  expands_to ts (placeholders_replaced ts) /\
  ordinary E (placeholders_replaced ts) = true.
Proof.
  intros H Ho.
  destruct (expand_call_free ts (S (2 * length ts)) H (Nat.lt_succ_diag_r _))
    as (o & He & Hm & _).
  split; [|now apply ordinary_replaced].
  rewrite <- Hm. exact (expands_to_expand _ _ _ He).
Qed.

Lemma placeholder_replaced_outside_invocations_witness :
  call_free (TId "ZMK_MACRO" :: RP :: param_bindings) = true /\
  ordinary reserved_names (TId "ZMK_MACRO" :: RP :: param_bindings) = true /\
  expands_to (TId "ZMK_MACRO" :: RP :: param_bindings)
             (TId "ZMK_MACRO" :: RP :: param_bindings_expanded).
Proof.
  do 2 (split; [reflexivity|]).
  exact (proj1 (placeholder_replaced_outside_invocations reserved_names
                  (TId "ZMK_MACRO" :: RP :: param_bindings)
                  eq_refl eq_refl)).
Defined.

(** ** Whole inputs *)

(** X2.  Every input whose parentheses pair up and that uses no name
    predefined by the preprocessor is expanded, whatever it invokes and
    however deeply: rescanning comes to an end.  In the result the
    parentheses pair up again, and no predefined name has appeared in it:
    what the header adds to the input are its own words. *)
Theorem balanced_input_expands (E : environment) ts :
  balanced ts = true -> ordinary E ts = true ->
  exists out,
    expands_to ts out /\ balanced out = true /\ ordinary E out = true.
Proof.
  intros Hb Ho. pose proof (closes_scan _ _ Hb) as Hs.
  destruct (expand_balanced (map fresh ts)) as (n & o & He & Hso);
    [now rewrite map_fst_fresh|].
  pose proof (expands_to_expand _ _ _ He) as Hex.
  exists (map fst o). split; [exact Hex|]. split; [now apply scan_balanced|].
  exact (expands_to_ordinary E _ _ Ho Hex).
Qed.

Lemma balanced_input_expands_witness :
  balanced (odd_name ++ call "ZMK_MACRO2" odd_name deferred_call) = true /\
  ordinary reserved_names
    (odd_name ++ call "ZMK_MACRO2" odd_name deferred_call) = true /\
  exists out,
    expands_to (odd_name ++ call "ZMK_MACRO2" odd_name deferred_call) out /\
    balanced out = true /\ ordinary reserved_names out = true.
Proof.
  do 2 (split; [reflexivity|]).
  exact (balanced_input_expands reserved_names
           (odd_name ++ call "ZMK_MACRO2" odd_name deferred_call)
           eq_refl eq_refl).
Defined.

(** ** Nested invocations *)














